(** * Minesweeper: the board, constraint sentences and the inference engine

    A shallow embedding of [minesweeper.py].  Python sets of cells are finite
    sets ([gset]) of integer pairs, Python integers are [Z], the knowledge
    list is a [list] of sentences, and the module-level random source is an
    explicit list of raw draws handed to the functions that use it.  A loop
    over a set is a fold over [elements] of the set; the order Python visits
    the cells in is not specified, and the section [iteration_order] shows
    that it does not matter.  No two entries of the knowledge list are the same
    object (every sentence is built by a [Sentence(...)] call of its own,
    which copies the cell set), so the in-place updates of the sentences are
    a map over the list. *)

From stdpp Require Import gmap list sorting.
From Stdlib Require Import ZArith Lia Ascii.
From Stdlib Require String.

Local Open Scope Z_scope.
#[local] Set Warnings "-clear-no-such-hyp".

(** A cell is a [(row, column)] tuple of Python integers. *)
Abbreviation cell := (Z * Z)%type.

(** ** The Python primitives the program relies on *)

Module Py.

Inductive exn := ValueError | IndexError.

(** The result of running code that may raise, or that may still be
    looping when the supplied random draws are used up. *)
Inductive outcome (A : Type) :=
| Returned (a : A)
| Raised (e : exn)
| Running.
Arguments Returned {A} a.
Arguments Raised {A} e.
Arguments Running {A}.

(** [range(lo, hi)]: empty when [hi <= lo]. *)
Definition range (lo hi : Z) : list Z := seqZ lo (hi - lo).

(** [l[i]]: a negative index counts from the end of the list; anything
    outside [-len(l) <= i < len(l)] raises [IndexError] ([None]). *)
Definition getitem {A} (l : list A) (i : Z) : option A :=
  if decide (0 <= i) then l !! Z.to_nat i
  else if decide (- Z.of_nat (length l) <= i)
       then l !! Z.to_nat (Z.of_nat (length l) + i)
       else None.

(** [l[i] = x], with the same indexing rule. *)
Definition setitem {A} (l : list A) (i : Z) (x : A) : option (list A) :=
  if decide (0 <= i) then
    if decide (i < Z.of_nat (length l)) then Some (<[Z.to_nat i := x]> l) else None
  else if decide (- Z.of_nat (length l) <= i)
       then Some (<[Z.to_nat (Z.of_nat (length l) + i) := x]> l)
       else None.

(** [random.randrange(n)] on the raw draw [r]: [ValueError] ([None]) for an
    empty range, otherwise a value of [0 <= _ < n]. *)
Definition randrange (n r : Z) : option Z :=
  if decide (0 < n) then Some (r `mod` n) else None.

(** [random.choice(seq)] on the raw draw [r], for a non-empty [seq]. *)
Definition choice {A} (l : list A) (r : Z) : option A :=
  l !! Z.to_nat (r `mod` Z.of_nat (length l)).

(** [s * n] on strings: the empty string for [n <= 0]. *)
Definition str_mul (s : list ascii) (n : Z) : list ascii :=
  concat (replicate (Z.to_nat n) s).

End Py.

(** The cells visited by [for i in range(h): for j in range(w)], in order. *)
Definition grid (h w : Z) : list cell :=
  i ← Py.range 0 h; j ← Py.range 0 w; [(i, j)].

(** ** class Minesweeper *)

Module Minesweeper.

Record t := Build {
  height : Z;
  width : Z;
  mines : gset cell;
  board : list (list bool);
  mines_found : gset cell
}.

(** The empty field built by the two nested [append] loops. *)
Definition empty_board (h w : Z) : list (list bool) :=
  (λ _ : Z, (λ _ : Z, false) <$> Py.range 0 w) <$> Py.range 0 h.

(** The [while len(self.mines) != mines] loop.  Each iteration takes two
    raw draws; the loop is [Running] when they are used up. *)
Fixpoint place_mines (draws : list Z) (h w target : Z)
    (ms : gset cell) (b : list (list bool)) : Py.outcome (gset cell * list (list bool)) :=
  if decide (Z.of_nat (size ms) = target) then Py.Returned (ms, b)
  else
    match draws with
    | [] => Py.Running
    | ri :: draws =>
      match Py.randrange h ri with
      | None => Py.Raised Py.ValueError
      | Some i =>
        match draws with
        | [] => Py.Running
        | rj :: draws =>
          match Py.randrange w rj with
          | None => Py.Raised Py.ValueError
          | Some j =>
            match Py.getitem b i with
            | None => Py.Raised Py.IndexError
            | Some row =>
              match Py.getitem row j with
              | None => Py.Raised Py.IndexError
              | Some true => place_mines draws h w target ms b
              | Some false =>
                match Py.setitem row j true with
                | None => Py.Raised Py.IndexError
                | Some row' =>
                  match Py.setitem b i row' with
                  | None => Py.Raised Py.IndexError
                  | Some b' => place_mines draws h w target (ms ∪ {[(i, j)]}) b'
                  end
                end
              end
            end
          end
        end
      end
    end.

(** [Minesweeper(height, width, mines)]. *)
Definition init (draws : list Z) (h w target : Z) : Py.outcome t :=
  match place_mines draws h w target ∅ (empty_board h w) with
  | Py.Returned (ms, b) => Py.Returned (Build h w ms b ∅)
  | Py.Raised e => Py.Raised e
  | Py.Running => Py.Running
  end.

(** [is_mine]: [None] is the [IndexError] of [self.board[i][j]]. *)
Definition is_mine (g : t) (c : cell) : option bool :=
  let '(i, j) := c in
  row ← Py.getitem (board g) i; Py.getitem row j.

(** [print]: the lines written to standard output, in order and each
    without its newline; the [print(..., end="")] calls of a row add to one
    line.  [None] is the [IndexError] of [self.board[i][j]]. *)
Definition print_cell (g : t) (i j : Z) : option (list ascii) :=
  row ← Py.getitem (board g) i; m ← Py.getitem row j;
  Some (if m : bool then ["|"; "X"] else ["|"; " "])%char.

Definition print_row (g : t) (i : Z) : option (list (list ascii)) :=
  cells ← mapM (print_cell g i) (Py.range 0 (width g));
  Some [Py.str_mul ["-"; "-"]%char (width g) ++ ["-"]%char;
        concat cells ++ ["|"]%char].

Definition print (g : t) : option (list (list ascii)) :=
  rows ← mapM (print_row g) (Py.range 0 (height g));
  Some (concat rows ++ [Py.str_mul ["-"; "-"]%char (width g) ++ ["-"]%char]).

(** [nearby_mines]: out-of-bounds neighbours are skipped by the explicit
    bounds test before [self.board[i][j]] is read; [None] is an [IndexError]
    of that read. *)
Definition nearby_mines_step (g : t) (c : cell) (acc : option Z) (n : cell) : option Z :=
  count ← acc;
  if decide (n = c) then Some count
  else if decide (0 <= n.1 < height g ∧ 0 <= n.2 < width g) then
    m ← is_mine g n; Some (if m : bool then count + 1 else count)
  else Some count.

Definition nearby_mines (g : t) (c : cell) : option Z :=
  foldl (λ acc i,
    foldl (λ acc j, nearby_mines_step g c acc (i, j))
          acc (Py.range (c.2 - 1) (c.2 + 2)))
  (Some 0) (Py.range (c.1 - 1) (c.1 + 2)).

Definition won (g : t) : bool := bool_decide (mines_found g = mines g).

End Minesweeper.

(** ** class Sentence *)

Module Sentence.

Record t := Build { cells : gset cell; count : Z }.

#[global] Instance eq_dec : EqDecision t.
Proof. solve_decision. Defined.

Definition known_mines (s : t) : gset cell :=
  if decide (Z.of_nat (size (cells s)) = count s) then cells s else ∅.

Definition known_safes (s : t) : gset cell :=
  if decide (count s = 0) then cells s else ∅.

Definition mark_mine (c : cell) (s : t) : t :=
  if decide (c ∈ cells s) then Build (cells s ∖ {[c]}) (count s - 1) else s.

Definition mark_safe (c : cell) (s : t) : t :=
  if decide (c ∈ cells s) then Build (cells s ∖ {[c]}) (count s) else s.

End Sentence.

(** ** class MinesweeperAI *)

Module MinesweeperAI.

Record t := Build {
  height : Z;
  width : Z;
  moves_made : gset cell;
  mines : gset cell;
  safes : gset cell;
  knowledge : list Sentence.t
}.

#[global] Instance eq_dec : EqDecision t.
Proof. solve_decision. Defined.

Definition init (h w : Z) : t := Build h w ∅ ∅ ∅ [].

Definition mark_mine (c : cell) (ai : t) : t :=
  Build (height ai) (width ai) (moves_made ai)
        (mines ai ∪ {[c]}) (safes ai)
        (Sentence.mark_mine c <$> knowledge ai).

Definition mark_safe (c : cell) (ai : t) : t :=
  Build (height ai) (width ai) (moves_made ai)
        (mines ai) (safes ai ∪ {[c]})
        (Sentence.mark_safe c <$> knowledge ai).

(** Step 3: the in-bounds cells of the 3x3 block around [c], without [c]. *)
Definition neighbours (h w : Z) (c : cell) : gset cell :=
  let block : list cell :=
    i ← Py.range (c.1 - 1) (c.1 + 2);
    j ← Py.range (c.2 - 1) (c.2 + 2);
    if decide (0 <= i ∧ i < h ∧ 0 <= j ∧ j < w) then [(i, j)] else [] in
  let ns : gset cell := list_to_set block in
  if decide (c ∈ ns) then ns ∖ {[c]} else ns.

(** Step 4, one iteration of [for n in neighbours.copy()]. *)
Definition filter_step (ai : t) (acc : gset cell * Z) (n : cell) : gset cell * Z :=
  let acc1 :=
    if decide (n ∈ mines ai) then (acc.1 ∪ {[n]}, acc.2 - 1) else acc in
  if decide (n ∈ safes ai ∨ n ∈ moves_made ai) then (acc1.1 ∪ {[n]}, acc1.2) else acc1.

(** Step 6, the scan that collects the cells every sentence settles. *)
Definition scan (kn : list Sentence.t) : gset cell * gset cell :=
  foldl (λ acc s, (acc.1 ∪ Sentence.known_mines s, acc.2 ∪ Sentence.known_safes s))
        (∅, ∅) kn.

(** Step 7, the body of the two nested loops for one pair [(s1, s2)]. *)
Definition infer_pair (kn : list Sentence.t) (s1 s2 : Sentence.t)
    (new : list Sentence.t) : list Sentence.t :=
  if decide (s1 = s2 ∨ size (Sentence.cells s1) = 0%nat ∨ size (Sentence.cells s2) = 0%nat)
  then new
  else if decide (Sentence.cells s1 ⊆ Sentence.cells s2) then
    let new_s := Sentence.Build (Sentence.cells s2 ∖ Sentence.cells s1)
                                (Sentence.count s2 - Sentence.count s1) in
    if decide ((new_s ∉ kn) ∧ (new_s ∉ new)) then new ++ [new_s] else new
  else new.

Definition infer (kn : list Sentence.t) : list Sentence.t :=
  foldl (λ new s1, foldl (λ new s2, infer_pair kn s1 s2 new) new kn) [] kn.

(** Steps 1 to 5: record the move, mark the cell safe, build the new
    sentence from the undetermined neighbours and append it when new. *)
Definition add_sentence (c : cell) (count : Z) (ai : t) : t :=
  let ai := Build (height ai) (width ai) (moves_made ai ∪ {[c]})
                  (mines ai) (safes ai) (knowledge ai) in
  let ai := if decide (c ∉ safes ai) then mark_safe c ai else ai in
  let ns := neighbours (height ai) (width ai) c in
  let '(removal, count) := foldl (filter_step ai) (∅, count) (elements ns) in
  let sentence := Sentence.Build (ns ∖ removal) count in
  if decide (sentence ∉ knowledge ai)
  then Build (height ai) (width ai) (moves_made ai) (mines ai) (safes ai)
             (knowledge ai ++ [sentence])
  else ai.

(** Step 6: one scan, then every collected mine and safe cell is marked. *)
Definition propagate (ai : t) : t :=
  let '(mine_cells, safe_cells) := scan (knowledge ai) in
  let ai := foldl (λ ai mine, mark_mine mine ai) ai (elements mine_cells) in
  foldl (λ ai safe, mark_safe safe ai) ai (elements safe_cells).

(** Step 7: one pass of pairwise subset inference. *)
Definition subset_inference (ai : t) : t :=
  Build (height ai) (width ai) (moves_made ai) (mines ai) (safes ai)
        (knowledge ai ++ infer (knowledge ai)).

Definition add_knowledge (c : cell) (count : Z) (ai : t) : t :=
  subset_inference (propagate (add_sentence c count ai)).

Definition make_safe_move (ai : t) : option cell :=
  head (filter (λ c, (c ∉ moves_made ai) ∧ c ∈ safes ai) (grid (height ai) (width ai))).

Definition make_random_move (ai : t) (r : Z) : option cell :=
  let options :=
    filter (λ c, (c ∉ moves_made ai) ∧ (c ∉ mines ai)) (grid (height ai) (width ai)) in
  match options with
  | [] => None
  | _ => Py.choice options r
  end.

(** The public mutators of the knowledge base, and runs of them. *)
Inductive op :=
| AddKnowledge (c : cell) (count : Z)
| MarkMine (c : cell)
| MarkSafe (c : cell).

Definition step (ai : t) (o : op) : t :=
  match o with
  | AddKnowledge c n => add_knowledge c n ai
  | MarkMine c => mark_mine c ai
  | MarkSafe c => mark_safe c ai
  end.

Definition run (ops : list op) (ai : t) : t := foldl step ai ops.

End MinesweeperAI.

Import MinesweeperAI.

(** ** Notions used in the statements *)

(** The [for mine in mine_cells] and [for safe in safe_cells] loops of step 6,
    on the cells in the order the set hands them out. *)
Definition mark_mines (l : list cell) (ai : t) : t :=
  foldl (λ ai mine, mark_mine mine ai) ai l.
Definition mark_safes (l : list cell) (ai : t) : t :=
  foldl (λ ai safe, mark_safe safe ai) ai l.

(** The state after steps 1 and 2 of [add_knowledge]. *)
Definition after_move (c : cell) (ai : t) : t :=
  let ai := Build (height ai) (width ai) (moves_made ai ∪ {[c]})
                  (mines ai) (safes ai) (knowledge ai) in
  if decide (c ∉ safes ai) then mark_safe c ai else ai.

(** The sentence step 5 builds, in closed form. *)
Definition new_sentence (c : cell) (count : Z) (ai : t) : Sentence.t :=
  let ai1 := after_move c ai in
  let ns := neighbours (height ai) (width ai) c in
  Sentence.Build (ns ∖ (mines ai1 ∪ safes ai1 ∪ moves_made ai1))
                 (count - Z.of_nat (size (ns ∩ mines ai1))).

(** The sentence step 7 derives from a pair [s1], [s2] with
    [s1.cells ⊆ s2.cells]. *)
Definition difference_sentence (s1 s2 : Sentence.t) : Sentence.t :=
  Sentence.Build (Sentence.cells s2 ∖ Sentence.cells s1)
                 (Sentence.count s2 - Sentence.count s1).

(** The pairs the two loops of step 7 do not skip. *)
Definition usable_pair (s1 s2 : Sentence.t) : Prop :=
  s1 ≠ s2 ∧ Sentence.cells s1 ≠ ∅ ∧ Sentence.cells s2 ≠ ∅ ∧
  Sentence.cells s1 ⊆ Sentence.cells s2.

(** The inner and the outer loop of step 7, started from any [new]. *)
Definition infer_inner (kn : list Sentence.t) (s1 : Sentence.t)
    (new l : list Sentence.t) : list Sentence.t :=
  foldl (λ new s2, infer_pair kn s1 s2 new) new l.
Definition infer_outer (kn new l : list Sentence.t) : list Sentence.t :=
  foldl (λ new s1, infer_inner kn s1 new kn) new l.

(** The cells of [s] are neither known mines nor known safes of [ai]. *)
Definition open_sentence (ai : t) (s : Sentence.t) : Prop :=
  Sentence.cells s ## mines ai ∧ Sentence.cells s ## safes ai.

Definition open_knowledge (ai : t) : Prop :=
  Forall (open_sentence ai) (knowledge ai).

(** A sentence is true of the mine layout [T] when [count] of its cells are
    mines. *)
Definition true_sentence (T : gset cell) (s : Sentence.t) : Prop :=
  Z.of_nat (size (Sentence.cells s ∩ T)) = Sentence.count s.

(** What the knowledge base says is right about the mine layout [T]. *)
Definition sound (T : gset cell) (ai : t) : Prop :=
  mines ai ⊆ T ∧ safes ai ## T ∧ moves_made ai ## T ∧
  Forall (true_sentence T) (knowledge ai).

(** A call tells the truth when [add_knowledge] is given a cell without a
    mine and the number of mines among its neighbours, [mark_mine] a cell
    with a mine and [mark_safe] a cell without one. *)
Definition truthful (T : gset cell) (ai : t) (o : op) : Prop :=
  match o with
  | AddKnowledge c count =>
      (c ∉ T) ∧ count = Z.of_nat (size (neighbours (height ai) (width ai) c ∩ T))
  | MarkMine c => c ∈ T
  | MarkSafe c => c ∉ T
  end.

Fixpoint truthful_run (T : gset cell) (ai : t) (ops : list op) : Prop :=
  match ops with
  | [] => True
  | o :: ops => truthful T ai o ∧ truthful_run T (step ai o) ops
  end.

(** The field has [h] rows of [w] entries, none for a negative size. *)
Definition board_shape (h w : Z) (b : list (list bool)) : Prop :=
  length b = Z.to_nat h ∧ Forall (λ row : list bool, length row = Z.to_nat w) b.

Definition cells_in_grid (h w : Z) (ms : gset cell) : Prop :=
  ∀ i j, (i, j) ∈ ms → 0 <= i < h ∧ 0 <= j < w.

(** The field shows a mine exactly at the cells of [ms]. *)
Definition board_agrees (h w : Z) (ms : gset cell) (b : list (list bool)) : Prop :=
  ∀ i j, 0 <= i < h → 0 <= j < w →
    b !! Z.to_nat i ≫= (λ row, row !! Z.to_nat j) = Some (bool_decide ((i, j) ∈ ms)).

(** What the mine-placing loop keeps true of the mine set and the field. *)
Definition placing_invariant (h w : Z) (ms : gset cell) (b : list (list bool)) : Prop :=
  board_shape h w b ∧ cells_in_grid h w ms ∧ board_agrees h w ms b.

(** The cells [nearby_mines] counts around [c]: not [c] itself, on the grid, with a mine. *)
Definition counted (g : Minesweeper.t) (c n : cell) : Prop :=
  n ≠ c ∧ (0 <= n.1 < Minesweeper.height g ∧ 0 <= n.2 < Minesweeper.width g) ∧
  n ∈ Minesweeper.mines g.

(** The 2x2 board with its one mine at (1,1). *)
Definition corner_mine_board : Minesweeper.t :=
  Minesweeper.Build 2 2 {[ (1, 1) ]} [[false; false]; [false; true]] ∅.

(** The cells [add_knowledge] was called on in a run of calls. *)
Definition revealed (ops : list op) : list cell :=
  ops ≫= λ o, match o with AddKnowledge c _ => [c] | _ => [] end.

(** The order the two nested [range] loops visit the cells in. *)
Definition row_major_lt (c1 c2 : cell) : Prop :=
  c1.1 < c2.1 ∨ (c1.1 = c2.1 ∧ c1.2 < c2.2).

(** The cells [make_safe_move] and [make_random_move] look for. *)
Definition safe_candidate (ai : t) (c : cell) : Prop :=
  (c ∉ moves_made ai) ∧ c ∈ safes ai.
Definition random_candidate (ai : t) (c : cell) : Prop :=
  (c ∉ moves_made ai) ∧ (c ∉ mines ai).

(** The raw draws that make the mine-placing loop pick the cells of [l], one
    after the other. *)
Definition draws_for (l : list cell) : list Z := l ≫= λ c, [c.1; c.2].

(** An [add_knowledge] call on a cell of the board [g] that holds no mine,
    with the count [nearby_mines] returns for that cell. *)
Definition board_answer (g : Minesweeper.t) (o : op) : Prop :=
  match o with
  | AddKnowledge c n =>
      (c ∉ Minesweeper.mines g) ∧ Minesweeper.nearby_mines g c = Some n
  | _ => False
  end.

(** The 2x3 board with its one mine at (1,1). *)
Definition centre_mine_board : Minesweeper.t :=
  Minesweeper.Build 2 3 {[ (1, 1) ]} [[false; false; false]; [false; true; false]] ∅.

(** The 3x3 block of cells [nearby_mines] and step 3 of [add_knowledge] loop
    over. *)
Definition block_around (c : cell) : list cell :=
  i ← Py.range (c.1 - 1) (c.1 + 2); j ← Py.range (c.2 - 1) (c.2 + 2); [(i, j)].

(** The character [print] shows for a cell. *)
Definition shown (g : Minesweeper.t) (c : cell) : ascii :=
  if bool_decide (c ∈ Minesweeper.mines g) then "X"%char else " "%char.

(** Closed decidable statements are settled by evaluation. *)
Ltac by_evaluation := apply (bool_decide_unpack _); vm_compute; exact I.

(** * Properties *)

(** ** Sentences *)

Section sentence_facts.
Implicit Types (s : Sentence.t) (c : cell).

Lemma cells_mark_mine c s :
  Sentence.cells (Sentence.mark_mine c s) = Sentence.cells s ∖ {[c]}.
Proof.
  unfold Sentence.mark_mine. destruct (decide _); simpl; [done | set_solver].
Qed.

Lemma cells_mark_safe c s :
  Sentence.cells (Sentence.mark_safe c s) = Sentence.cells s ∖ {[c]}.
Proof.
  unfold Sentence.mark_safe. destruct (decide _); simpl; [done | set_solver].
Qed.

Lemma count_mark_safe c s :
  Sentence.count (Sentence.mark_safe c s) = Sentence.count s.
Proof. unfold Sentence.mark_safe. by destruct (decide _). Qed.

Lemma mark_safe_absent c s :
  c ∉ Sentence.cells s → Sentence.mark_safe c s = s.
Proof. intros. unfold Sentence.mark_safe. by destruct (decide _). Qed.

Lemma mark_mine_absent c s :
  c ∉ Sentence.cells s → Sentence.mark_mine c s = s.
Proof. intros. unfold Sentence.mark_mine. by destruct (decide _). Qed.

Lemma mark_safe_twice c s :
  Sentence.mark_safe c (Sentence.mark_safe c s) = Sentence.mark_safe c s.
Proof.
  apply mark_safe_absent. rewrite cells_mark_safe. set_solver.
Qed.

Lemma size_remove_present c (X : gset cell) :
  c ∈ X → size X = S (size (X ∖ {[c]})).
Proof.
  intros Hc.
  assert (X = {[c]} ∪ X ∖ {[c]}) as HX.
  { apply set_eq. intros x. destruct (decide (x = c)); set_solver. }
  rewrite HX at 1. rewrite size_union by set_solver.
  by rewrite size_singleton.
Qed.

Lemma size_zero_empty (X : gset cell) : size X = 0%nat ↔ X = ∅.
Proof.
  split; [intros HX | intros ->; apply size_empty].
  apply leibniz_equiv. by apply size_empty_inv.
Qed.

End sentence_facts.

(** C6, as the code has it: [known_mines] gives back the whole cell set when
    [count] equals the number of cells and the empty set otherwise;
    [known_safes] gives back the whole cell set when [count] is 0 and the
    empty set otherwise.  For a sentence that has cells this makes each an
    equivalence; a sentence without cells gets its (empty) cell set back from
    both, whatever its count. *)
Theorem known_mines_known_safes_exact (s : Sentence.t) :
  (Z.of_nat (size (Sentence.cells s)) = Sentence.count s →
     Sentence.known_mines s = Sentence.cells s) ∧
  (Z.of_nat (size (Sentence.cells s)) ≠ Sentence.count s →
     Sentence.known_mines s = ∅) ∧
  (Sentence.count s = 0 → Sentence.known_safes s = Sentence.cells s) ∧
  (Sentence.count s ≠ 0 → Sentence.known_safes s = ∅) ∧
  (Sentence.cells s ≠ ∅ →
     (Sentence.known_mines s = Sentence.cells s ↔
        Z.of_nat (size (Sentence.cells s)) = Sentence.count s) ∧
     (Sentence.known_safes s = Sentence.cells s ↔ Sentence.count s = 0)) ∧
  (Sentence.cells s = ∅ →
     Sentence.known_mines s = Sentence.cells s ∧
     Sentence.known_safes s = Sentence.cells s).
Proof.
  unfold Sentence.known_mines, Sentence.known_safes.
  repeat split; intros; repeat destruct (decide _); try done; congruence.
Qed.

Lemma known_mines_known_safes_exact_witness :
  let s := Sentence.Build {[ (0, 1); (1, 1) ]} 2 in
  (Sentence.known_mines s = Sentence.cells s ↔
     Z.of_nat (size (Sentence.cells s)) = Sentence.count s) ∧
  Sentence.known_safes s = ∅.
Proof.
  intros s.
  destruct (known_mines_known_safes_exact s) as (_ & _ & _ & Hsafes & Hiff & _).
  split; [apply Hiff | apply Hsafes]; by vm_compute.
Defined.

(** C6, as stated, fails for a sentence without cells: [Sentence(set(), 3)]
    gets its whole cell set back from [known_mines] although its count is
    not the number of its cells, and from [known_safes] although its count is
    not 0. *)
Lemma empty_sentence_gets_its_cells_back_whatever_the_count :
  let s := Sentence.Build ∅ 3 in
  (Sentence.known_mines s = Sentence.cells s ∧
   Z.of_nat (size (Sentence.cells s)) ≠ Sentence.count s) ∧
  (Sentence.known_safes s = Sentence.cells s ∧ Sentence.count s ≠ 0).
Proof. cbv zeta. by_evaluation. Qed.

(** C7: on a cell of the sentence [mark_mine] removes exactly that cell and
    lowers [count] by one, [mark_safe] removes exactly that cell and keeps
    [count]; on any other cell both return the sentence unchanged. *)
Theorem mark_mine_mark_safe_exact (s : Sentence.t) (c : cell) :
  (c ∈ Sentence.cells s →
     Sentence.mark_mine c s
       = Sentence.Build (Sentence.cells s ∖ {[c]}) (Sentence.count s - 1) ∧
     Sentence.mark_safe c s
       = Sentence.Build (Sentence.cells s ∖ {[c]}) (Sentence.count s) ∧
     size (Sentence.cells s) = S (size (Sentence.cells s ∖ {[c]}))) ∧
  (c ∉ Sentence.cells s →
     Sentence.mark_mine c s = s ∧ Sentence.mark_safe c s = s).
Proof.
  split; intros Hc.
  - unfold Sentence.mark_mine, Sentence.mark_safe.
    rewrite !decide_True by done. auto using size_remove_present.
  - auto using mark_mine_absent, mark_safe_absent.
Qed.

Lemma mark_mine_mark_safe_exact_witness :
  let s := Sentence.Build {[ (0, 1); (1, 1) ]} 1 in
  (Sentence.mark_mine (0, 1) s = Sentence.Build ({[ (0, 1); (1, 1) ]} ∖ {[ (0, 1) ]}) 0 ∧
   Sentence.mark_safe (0, 1) s = Sentence.Build ({[ (0, 1); (1, 1) ]} ∖ {[ (0, 1) ]}) 1) ∧
  (Sentence.mark_mine (5, 5) s = s ∧ Sentence.mark_safe (5, 5) s = s).
Proof.
  intros s.
  pose proof (mark_mine_mark_safe_exact s (0, 1)) as [Hin _].
  pose proof (mark_mine_mark_safe_exact s (5, 5)) as [_ Hout].
  split.
  - destruct Hin as (Hm & Hs & _); [by vm_compute | by split].
  - apply Hout. by vm_compute.
Defined.

(** ** Marking cells in the knowledge base *)

Section marking.
Implicit Types (ai : t) (c : cell) (l : list cell).

Lemma mark_mines_cons c l ai : mark_mines (c :: l) ai = mark_mines l (mark_mine c ai).
Proof. done. Qed.

Lemma mark_safes_cons c l ai : mark_safes (c :: l) ai = mark_safes l (mark_safe c ai).
Proof. done. Qed.

Lemma mark_mines_fields l ai :
  height (mark_mines l ai) = height ai ∧ width (mark_mines l ai) = width ai ∧
  moves_made (mark_mines l ai) = moves_made ai ∧
  mines (mark_mines l ai) = mines ai ∪ list_to_set l ∧
  safes (mark_mines l ai) = safes ai.
Proof.
  revert ai. induction l as [|c l IH]; intros ai.
  - simpl. repeat split; set_solver.
  - rewrite mark_mines_cons.
    destruct (IH (mark_mine c ai)) as (-> & -> & -> & -> & ->).
    simpl. repeat split; set_solver.
Qed.

Lemma mark_safes_fields l ai :
  height (mark_safes l ai) = height ai ∧ width (mark_safes l ai) = width ai ∧
  moves_made (mark_safes l ai) = moves_made ai ∧
  mines (mark_safes l ai) = mines ai ∧
  safes (mark_safes l ai) = safes ai ∪ list_to_set l.
Proof.
  revert ai. induction l as [|c l IH]; intros ai.
  - simpl. repeat split; set_solver.
  - rewrite mark_safes_cons.
    destruct (IH (mark_safe c ai)) as (-> & -> & -> & -> & ->).
    simpl. repeat split; set_solver.
Qed.

(** A property of sentences that marking one cell preserves is preserved
    by the whole run. *)
Lemma mark_mines_knowledge (P : Sentence.t → Prop) l ai :
  (∀ c s, c ∈ l → P s → P (Sentence.mark_mine c s)) →
  Forall P (knowledge ai) → Forall P (knowledge (mark_mines l ai)).
Proof.
  revert ai. induction l as [|c l IH]; intros ai Hstep HP; [done|].
  rewrite mark_mines_cons. apply IH.
  - intros c' s Hc'. apply Hstep. set_solver.
  - simpl. apply Forall_fmap. eapply Forall_impl; [exact HP|].
    intros s Hs. apply Hstep; [set_solver | done].
Qed.

Lemma mark_safes_knowledge (P : Sentence.t → Prop) l ai :
  (∀ c s, c ∈ l → P s → P (Sentence.mark_safe c s)) →
  Forall P (knowledge ai) → Forall P (knowledge (mark_safes l ai)).
Proof.
  revert ai. induction l as [|c l IH]; intros ai Hstep HP; [done|].
  rewrite mark_safes_cons. apply IH.
  - intros c' s Hc'. apply Hstep. set_solver.
  - simpl. apply Forall_fmap. eapply Forall_impl; [exact HP|].
    intros s Hs. apply Hstep; [set_solver | done].
Qed.

Lemma mark_safe_idem c ai : mark_safe c (mark_safe c ai) = mark_safe c ai.
Proof.
  unfold mark_safe. simpl. f_equal.
  - set_solver.
  - rewrite <- list_fmap_compose. apply list_fmap_ext.
    intros i s _. apply mark_safe_twice.
Qed.

End marking.

(** C10: a second [mark_safe] of the same cell changes nothing: the moves
    made, the known mines, the known safes and every sentence are the same
    as after the first call. *)
Theorem mark_safe_idempotent (ai : t) (c : cell) :
  mark_safe c (mark_safe c ai) = mark_safe c ai.
Proof. apply mark_safe_idem. Qed.

(** ** Choosing a move *)

Lemma elem_of_grid (h w i j : Z) : (i, j) ∈ grid h w ↔ 0 <= i < h ∧ 0 <= j < w.
Proof.
  unfold grid, Py.range. rewrite list_elem_of_bind. split.
  - intros (i' & Hin & Hi'). apply list_elem_of_bind in Hin as (j' & Hin & Hj').
    apply list_elem_of_singleton in Hin as [= -> ->].
    apply elem_of_seqZ in Hi', Hj'. lia.
  - intros [Hi Hj]. exists i. split; [|apply elem_of_seqZ; lia].
    apply list_elem_of_bind. exists j. split; [set_solver|apply elem_of_seqZ; lia].
Qed.

Lemma choice_elem_of {A} (l : list A) (r : Z) (x : A) : Py.choice l r = Some x → x ∈ l.
Proof. unfold Py.choice. intros H. by eapply list_elem_of_lookup_2. Qed.

Lemma choice_is_Some {A} (l : list A) (r : Z) : l ≠ [] → is_Some (Py.choice l r).
Proof.
  intros Hl. unfold Py.choice. apply lookup_lt_is_Some.
  assert (0 < Z.of_nat (length l)) by (destruct l; [done | simpl; lia]).
  pose proof (Z.mod_pos_bound r (Z.of_nat (length l))). lia.
Qed.

(** C8: [make_safe_move] never returns a cell of [moves_made];
    [make_random_move] never returns a cell of [moves_made] or of [mines],
    and it returns [None] exactly when every cell of the grid is in
    [moves_made] or in [mines]. *)
Theorem moves_avoid_excluded_cells (ai : t) :
  (∀ c, make_safe_move ai = Some c → c ∉ moves_made ai) ∧
  (∀ r c, make_random_move ai r = Some c → (c ∉ moves_made ai) ∧ (c ∉ mines ai)) ∧
  (∀ r, make_random_move ai r = None ↔
        ∀ i j, 0 <= i < height ai → 0 <= j < width ai →
               (i, j) ∈ moves_made ai ∨ (i, j) ∈ mines ai).
Proof.
  unfold make_safe_move, make_random_move. split; [|split].
  - intros c Hc. apply head_Some_elem_of, list_elem_of_filter in Hc. tauto.
  - intros r c Hc.
    destruct (filter _ _) as [|o os] eqn:Hopts; [done|].
    apply choice_elem_of in Hc. rewrite <- Hopts in Hc.
    apply list_elem_of_filter in Hc. tauto.
  - intros r. destruct (filter _ _) as [|o os] eqn:Hopts.
    + split; [intros _ i j Hi Hj | done].
      assert ((i, j) ∈ grid (height ai) (width ai)) as Hin by by apply elem_of_grid.
      destruct (decide ((i, j) ∈ moves_made ai)); [by left|].
      destruct (decide ((i, j) ∈ mines ai)); [by right|].
      exfalso. eapply (filter_nil_not_elem_of _ _ (i, j)); [exact Hopts | | exact Hin].
      done.
    + split.
      * intros Hnone. destruct (choice_is_Some (o :: os) r) as [x Hx]; [done|].
        congruence.
      * intros Hall. exfalso.
        assert (o ∈ o :: os) as Ho by set_solver.
        rewrite <- Hopts in Ho. apply list_elem_of_filter in Ho as [[Hm Hn] Hg].
        destruct o as [i j]. apply elem_of_grid in Hg as [Hi Hj].
        destruct (Hall i j Hi Hj); done.
Qed.

Lemma moves_avoid_excluded_cells_witness :
  let ai := Build 1 2 {[ (0, 0) ]} {[ (0, 1) ]} {[ (0, 0) ]} [] in
  make_random_move ai 7 = None.
Proof.
  intros ai.
  apply (proj2 (proj2 (moves_avoid_excluded_cells ai)) 7).
  intros i j Hi Hj. simpl in Hi, Hj.
  assert (i = 0) as -> by lia.
  assert (j = 0 ∨ j = 1) as [-> | ->] by lia; [left | right]; by vm_compute.
Defined.

(** ** Steps 3 to 5 of [add_knowledge]: the new sentence *)

Section new_sentence.
Implicit Types (ai : t) (c n : cell) (l : list cell).

Lemma elem_of_neighbours h w c n :
  n ∈ neighbours h w c ↔
    0 <= n.1 < h ∧ 0 <= n.2 < w ∧
    c.1 - 1 <= n.1 <= c.1 + 1 ∧ c.2 - 1 <= n.2 <= c.2 + 1 ∧ n ≠ c.
Proof.
  assert (∀ m : cell,
    m ∈ (i ← Py.range (c.1 - 1) (c.1 + 2);
         j ← Py.range (c.2 - 1) (c.2 + 2);
         if decide (0 <= i ∧ i < h ∧ 0 <= j ∧ j < w) then [(i, j)] else []) ↔
    0 <= m.1 < h ∧ 0 <= m.2 < w ∧
    c.1 - 1 <= m.1 <= c.1 + 1 ∧ c.2 - 1 <= m.2 <= c.2 + 1) as Hblock.
  { intros [mi mj]. unfold Py.range. rewrite list_elem_of_bind. simpl. split.
    - intros (i & Hin & Hi). apply list_elem_of_bind in Hin as (j & Hin & Hj).
      apply elem_of_seqZ in Hi, Hj.
      destruct (decide _); [|by apply not_elem_of_nil in Hin].
      apply list_elem_of_singleton in Hin as [= -> ->]. lia.
    - intros (Hi & Hj & Hci & Hcj). exists mi. split; [|apply elem_of_seqZ; lia].
      apply list_elem_of_bind. exists mj. split; [|apply elem_of_seqZ; lia].
      rewrite decide_True by lia. set_solver. }
  unfold neighbours. destruct (decide _) as [Hc|Hc].
  - rewrite elem_of_difference, elem_of_list_to_set, Hblock. set_solver.
  - rewrite elem_of_list_to_set, Hblock.
    rewrite elem_of_list_to_set, Hblock in Hc.
    split; [|tauto]. intros Hn. repeat split; try tauto.
    intros ->. tauto.
Qed.

Lemma cell_not_neighbour h w c : c ∉ neighbours h w c.
Proof. rewrite elem_of_neighbours. tauto. Qed.

(** The cells step 4 takes out of the neighbour set are the ones already
    known as mines, known as safe or already played, and the count drops
    by one for each known mine among them. *)
Lemma filter_fold ai l (R : gset cell) (k : Z) :
  foldl (filter_step ai) (R, k) l =
    (R ∪ list_to_set
           (filter (λ n, n ∈ mines ai ∨ n ∈ safes ai ∨ n ∈ moves_made ai) l),
     k - Z.of_nat (length (filter (λ n, n ∈ mines ai) l))).
Proof.
  revert R k. induction l as [|n l IH]; intros R k.
  - simpl. f_equal; [set_solver | lia].
  - simpl. unfold filter_step at 2. simpl.
    rewrite !filter_cons.
    destruct (decide (n ∈ mines ai)) as [Hm|Hm];
      destruct (decide (n ∈ safes ai ∨ n ∈ moves_made ai)) as [Hs|Hs]; simpl;
      rewrite IH.
    + rewrite decide_True by tauto. simpl. f_equal; [set_solver | lia].
    + rewrite decide_True by tauto. simpl. f_equal; [set_solver | lia].
    + rewrite decide_True by tauto. simpl. f_equal; set_solver.
    + rewrite decide_False by tauto. done.
Qed.

Lemma size_inter_filter (X Y : gset cell) :
  length (filter (λ n, n ∈ Y) (elements X)) = size (X ∩ Y).
Proof.
  rewrite <- (size_list_to_set (C := gset cell)).
  - f_equal. apply set_eq. intros x.
    rewrite elem_of_list_to_set, list_elem_of_filter, elem_of_elements. set_solver.
  - apply NoDup_filter, NoDup_elements.
Qed.

Lemma after_move_fields c ai :
  height (after_move c ai) = height ai ∧ width (after_move c ai) = width ai ∧
  moves_made (after_move c ai) = moves_made ai ∪ {[c]} ∧
  mines (after_move c ai) = mines ai ∧
  safes (after_move c ai) = safes ai ∪ {[c]}.
Proof.
  unfold after_move. simpl. destruct (decide _) as [Hc|Hc]; simpl.
  - done.
  - apply dec_stable in Hc. repeat split. set_solver.
Qed.

Lemma add_sentence_unfold c count ai :
  add_sentence c count ai =
    let ai1 := after_move c ai in
    let s := new_sentence c count ai in
    if decide (s ∉ knowledge ai1)
    then Build (height ai1) (width ai1) (moves_made ai1) (mines ai1) (safes ai1)
               (knowledge ai1 ++ [s])
    else ai1.
Proof.
  unfold add_sentence, new_sentence. fold (after_move c ai).
  destruct (after_move_fields c ai) as (Hh & Hw & _).
  cbv zeta. rewrite Hh, Hw.
  set (ai1 := after_move c ai). set (ns := neighbours (height ai) (width ai) c).
  rewrite filter_fold, size_inter_filter.
  assert (ns ∖ (∅ ∪ list_to_set
             (filter (λ n, n ∈ mines ai1 ∨ n ∈ safes ai1 ∨ n ∈ moves_made ai1)
                     (elements ns)))
          = ns ∖ (mines ai1 ∪ safes ai1 ∪ moves_made ai1)) as ->; [|done].
  apply set_eq. intros x.
  rewrite !elem_of_difference, elem_of_union, elem_of_list_to_set,
    list_elem_of_filter, elem_of_elements.
  set_solver.
Qed.

Lemma add_sentence_fields c count ai :
  height (add_sentence c count ai) = height ai ∧
  width (add_sentence c count ai) = width ai ∧
  moves_made (add_sentence c count ai) = moves_made ai ∪ {[c]} ∧
  mines (add_sentence c count ai) = mines ai ∧
  safes (add_sentence c count ai) = safes ai ∪ {[c]}.
Proof.
  rewrite add_sentence_unfold. cbv zeta.
  destruct (after_move_fields c ai) as (? & ? & ? & ? & ?).
  destruct (decide _); simpl; done.
Qed.

Lemma new_sentence_in_knowledge c count ai :
  new_sentence c count ai ∈ knowledge (add_sentence c count ai).
Proof.
  rewrite add_sentence_unfold. cbv zeta.
  destruct (decide _) as [Hs|Hs]; simpl.
  - set_solver.
  - by apply dec_stable in Hs.
Qed.

End new_sentence.

(** ** Step 6 of [add_knowledge]: the scan and the marking *)

Section propagation.
Implicit Types (ai : t) (c x : cell) (kn : list Sentence.t).

Lemma scan_fold kn (M S : gset cell) x :
  let r := foldl (λ acc s, (acc.1 ∪ Sentence.known_mines s,
                            acc.2 ∪ Sentence.known_safes s)) (M, S) kn in
  (x ∈ r.1 ↔ x ∈ M ∨ ∃ s, s ∈ kn ∧ x ∈ Sentence.known_mines s) ∧
  (x ∈ r.2 ↔ x ∈ S ∨ ∃ s, s ∈ kn ∧ x ∈ Sentence.known_safes s).
Proof.
  revert M S. induction kn as [|s kn IH]; intros M S; simpl.
  - set_solver.
  - destruct (IH (M ∪ Sentence.known_mines s) (S ∪ Sentence.known_safes s))
      as [IH1 IH2].
    simpl in IH1, IH2. rewrite IH1, IH2. set_solver.
Qed.

Lemma elem_of_scan_mines kn x :
  x ∈ (scan kn).1 ↔ ∃ s, s ∈ kn ∧ x ∈ Sentence.known_mines s.
Proof.
  unfold scan. destruct (scan_fold kn ∅ ∅ x) as [-> _]. set_solver.
Qed.

Lemma elem_of_scan_safes kn x :
  x ∈ (scan kn).2 ↔ ∃ s, s ∈ kn ∧ x ∈ Sentence.known_safes s.
Proof.
  unfold scan. destruct (scan_fold kn ∅ ∅ x) as [_ ->]. set_solver.
Qed.

Lemma propagate_unfold ai :
  propagate ai =
    mark_safes (elements (scan (knowledge ai)).2)
               (mark_mines (elements (scan (knowledge ai)).1) ai).
Proof. unfold propagate. by destruct (scan (knowledge ai)). Qed.

Lemma propagate_fields ai :
  height (propagate ai) = height ai ∧ width (propagate ai) = width ai ∧
  moves_made (propagate ai) = moves_made ai ∧
  mines (propagate ai) = mines ai ∪ (scan (knowledge ai)).1 ∧
  safes (propagate ai) = safes ai ∪ (scan (knowledge ai)).2.
Proof.
  rewrite propagate_unfold.
  destruct (mark_safes_fields (elements (scan (knowledge ai)).2)
              (mark_mines (elements (scan (knowledge ai)).1) ai))
    as (-> & -> & -> & -> & ->).
  destruct (mark_mines_fields (elements (scan (knowledge ai)).1) ai)
    as (-> & -> & -> & -> & ->).
  by rewrite !list_to_set_elements_L.
Qed.

Lemma add_knowledge_fields c count ai :
  height (add_knowledge c count ai) = height ai ∧
  width (add_knowledge c count ai) = width ai ∧
  moves_made (add_knowledge c count ai) = moves_made ai ∪ {[c]} ∧
  mines (add_knowledge c count ai)
    = mines ai ∪ (scan (knowledge (add_sentence c count ai))).1 ∧
  safes (add_knowledge c count ai)
    = safes ai ∪ {[c]} ∪ (scan (knowledge (add_sentence c count ai))).2.
Proof.
  unfold add_knowledge, subset_inference. simpl.
  destruct (propagate_fields (add_sentence c count ai)) as (-> & -> & -> & -> & ->).
  destruct (add_sentence_fields c count ai) as (-> & -> & -> & -> & ->).
  done.
Qed.

(** A sentence with count 0 in the list that step 6 scans puts all of its
    cells into [safes]. *)
Lemma zero_sentence_marked_safe c count ai s x :
  s ∈ knowledge (add_sentence c count ai) → Sentence.count s = 0 →
  x ∈ Sentence.cells s → x ∈ safes (add_knowledge c count ai).
Proof.
  intros Hs Hzero Hx.
  destruct (add_knowledge_fields c count ai) as (_ & _ & _ & _ & ->).
  apply elem_of_union_r, elem_of_scan_safes. exists s. split; [done|].
  unfold Sentence.known_safes. by rewrite decide_True.
Qed.

End propagation.

(** C5: on a fresh knowledge base, one [add_knowledge(cell, 0)] call puts
    every in-bounds neighbour of [cell] into [safes]; this holds for a
    corner cell as for any other cell. *)
Theorem zero_count_marks_all_neighbours_safe (h w ci cj i j : Z) :
  0 <= i < h → 0 <= j < w →
  ci - 1 <= i <= ci + 1 → cj - 1 <= j <= cj + 1 → (i, j) ≠ (ci, cj) →
  (i, j) ∈ safes (add_knowledge (ci, cj) 0 (init h w)).
Proof.
  intros Hi Hj Hci Hcj Hne.
  assert ((i, j) ∈ neighbours h w (ci, cj)) as Hn
    by (apply elem_of_neighbours; simpl; tauto).
  eapply (zero_sentence_marked_safe _ _ _ (new_sentence (ci, cj) 0 (init h w))).
  - apply new_sentence_in_knowledge.
  - unfold new_sentence. simpl.
    destruct (after_move_fields (ci, cj) (init h w)) as (_ & _ & _ & -> & _).
    simpl. replace (neighbours h w (ci, cj) ∩ ∅) with (∅ : gset cell) by set_solver.
    by rewrite size_empty.
  - unfold new_sentence. simpl.
    destruct (after_move_fields (ci, cj) (init h w)) as (_ & _ & -> & -> & ->).
    simpl. set_solver.
Qed.

Lemma zero_count_marks_all_neighbours_safe_witness :
  (0, 1) ∈ safes (add_knowledge (0, 0) 0 (init 8 8)) ∧
  (1, 0) ∈ safes (add_knowledge (0, 0) 0 (init 8 8)) ∧
  (1, 1) ∈ safes (add_knowledge (0, 0) 0 (init 8 8)).
Proof.
  split; [|split];
    apply (zero_count_marks_all_neighbours_safe 8 8 0 0); (lia || discriminate).
Defined.

(** ** Step 7 of [add_knowledge]: subset inference *)

Section inference.
Implicit Types (s : Sentence.t) (kn new l : list Sentence.t).

Lemma infer_pair_cases kn s1 s2 new :
  (usable_pair s1 s2 ∧ (difference_sentence s1 s2 ∉ kn) ∧
   (difference_sentence s1 s2 ∉ new) ∧
   infer_pair kn s1 s2 new = new ++ [difference_sentence s1 s2]) ∨
  ((usable_pair s1 s2 →
      difference_sentence s1 s2 ∈ kn ∨ difference_sentence s1 s2 ∈ new) ∧
   infer_pair kn s1 s2 new = new).
Proof.
  unfold infer_pair, usable_pair. fold (difference_sentence s1 s2).
  destruct (decide (s1 = s2 ∨ _ ∨ _)) as [Hskip|Hskip];
    rewrite !size_zero_empty in Hskip; [right; split; [tauto|done]|].
  destruct (decide (_ ⊆ _)) as [Hsub|Hsub]; [|right; split; [tauto|done]].
  destruct (decide (_ ∧ _)) as [Hnew|Hnew].
  - left. tauto.
  - right. split; [|done]. intros _.
    destruct (decide (difference_sentence s1 s2 ∈ kn)); [by left|].
    destruct (decide (difference_sentence s1 s2 ∈ new)); [by right|]. tauto.
Qed.

Lemma infer_unfold kn : infer kn = infer_outer kn [] kn.
Proof. done. Qed.

(** Every sentence the pass derives comes from a usable pair. *)
Lemma infer_inner_Forall (P : Sentence.t → Prop) kn s1 new l :
  (∀ s2, s2 ∈ l → usable_pair s1 s2 → P (difference_sentence s1 s2)) →
  Forall P new → Forall P (infer_inner kn s1 new l).
Proof.
  revert new. induction l as [|s2 l IH]; intros new Hstep Hnew; [done|].
  simpl. apply IH; [intros; apply Hstep; set_solver|].
  destruct (infer_pair_cases kn s1 s2 new) as [(Hu & _ & _ & ->)|[_ ->]]; [|done].
  apply Forall_app. split; [done|]. apply Forall_singleton, Hstep; set_solver.
Qed.

Lemma infer_outer_Forall (P : Sentence.t → Prop) kn new l :
  (∀ s1 s2, s1 ∈ l → s2 ∈ kn → usable_pair s1 s2 → P (difference_sentence s1 s2)) →
  Forall P new → Forall P (infer_outer kn new l).
Proof.
  revert new. induction l as [|s1 l IH]; intros new Hstep Hnew; [done|].
  simpl. apply IH; [intros; apply Hstep; set_solver|].
  apply infer_inner_Forall; [|done]. intros; apply Hstep; set_solver.
Qed.

Lemma infer_Forall (P : Sentence.t → Prop) kn :
  (∀ s1 s2, s1 ∈ kn → s2 ∈ kn → usable_pair s1 s2 → P (difference_sentence s1 s2)) →
  Forall P (infer kn).
Proof. intros. rewrite infer_unfold. by apply infer_outer_Forall. Qed.

(** Nothing already derived is lost ... *)
Lemma infer_inner_mono kn s1 new l s : s ∈ new → s ∈ infer_inner kn s1 new l.
Proof.
  revert new. induction l as [|s2 l IH]; intros new Hs; [done|].
  simpl. apply IH.
  destruct (infer_pair_cases kn s1 s2 new) as [(_ & _ & _ & ->)|[_ ->]]; set_solver.
Qed.

Lemma infer_outer_mono kn new l s : s ∈ new → s ∈ infer_outer kn new l.
Proof.
  revert new. induction l as [|s1 l IH]; intros new Hs; [done|].
  simpl. by apply IH, infer_inner_mono.
Qed.

(** ... and every usable pair has its difference in the knowledge list or
    among the derived sentences. *)
Lemma infer_inner_complete kn s1 s2 new l :
  s2 ∈ l → usable_pair s1 s2 →
  difference_sentence s1 s2 ∈ kn ∨ difference_sentence s1 s2 ∈ infer_inner kn s1 new l.
Proof.
  revert new. induction l as [|s2' l IH]; intros new Hin Hu; [set_solver|].
  simpl. apply elem_of_cons in Hin as [<-|Hin]; [|by apply IH].
  destruct (infer_pair_cases kn s1 s2 new) as [(_ & _ & _ & ->)|[Hor ->]].
  - right. apply infer_inner_mono. set_solver.
  - destruct (Hor Hu); [by left|]. right. by apply infer_inner_mono.
Qed.

Lemma infer_outer_complete kn s1 s2 new l :
  s1 ∈ l → s2 ∈ kn → usable_pair s1 s2 →
  difference_sentence s1 s2 ∈ kn ∨ difference_sentence s1 s2 ∈ infer_outer kn new l.
Proof.
  revert new. induction l as [|s1' l IH]; intros new Hin Hin2 Hu; [set_solver|].
  simpl. apply elem_of_cons in Hin as [<-|Hin]; [|by apply IH].
  destruct (infer_inner_complete kn s1 s2 new kn Hin2 Hu) as [?|?]; [by left|].
  right. by apply infer_outer_mono.
Qed.

Lemma infer_complete kn s1 s2 :
  s1 ∈ kn → s2 ∈ kn → usable_pair s1 s2 →
  difference_sentence s1 s2 ∈ kn ++ infer kn.
Proof.
  intros H1 H2 Hu. rewrite elem_of_app, infer_unfold.
  by apply infer_outer_complete.
Qed.

End inference.

(** ** No sentence mentions a settled cell *)

Section settled_cells.
Implicit Types (ai : t) (c : cell) (s : Sentence.t).

Lemma open_knowledge_mark_mine c ai : open_knowledge ai → open_knowledge (mark_mine c ai).
Proof.
  unfold open_knowledge, open_sentence. intros Hai. simpl.
  apply Forall_fmap. eapply Forall_impl; [exact Hai|].
  intros s [Hm Hs]. simpl. rewrite cells_mark_mine. set_solver.
Qed.

Lemma open_knowledge_mark_safe c ai : open_knowledge ai → open_knowledge (mark_safe c ai).
Proof.
  unfold open_knowledge, open_sentence. intros Hai. simpl.
  apply Forall_fmap. eapply Forall_impl; [exact Hai|].
  intros s [Hm Hs]. simpl. rewrite cells_mark_safe. set_solver.
Qed.

Lemma open_knowledge_mark_mines l ai : open_knowledge ai → open_knowledge (mark_mines l ai).
Proof.
  revert ai. induction l as [|c l IH]; intros ai Hai; [done|].
  rewrite mark_mines_cons. by apply IH, open_knowledge_mark_mine.
Qed.

Lemma open_knowledge_mark_safes l ai : open_knowledge ai → open_knowledge (mark_safes l ai).
Proof.
  revert ai. induction l as [|c l IH]; intros ai Hai; [done|].
  rewrite mark_safes_cons. by apply IH, open_knowledge_mark_safe.
Qed.

Lemma open_knowledge_after_move c ai : open_knowledge ai → open_knowledge (after_move c ai).
Proof.
  intros Hai. unfold after_move. destruct (decide _); [|done].
  by apply (open_knowledge_mark_safe c (Build _ _ _ _ _ _)).
Qed.

Lemma open_knowledge_add_sentence c count ai :
  open_knowledge ai → open_knowledge (add_sentence c count ai).
Proof.
  intros Hai%(open_knowledge_after_move c). rewrite add_sentence_unfold. cbv zeta.
  destruct (decide _); [|done].
  unfold open_knowledge, open_sentence in *. simpl.
  apply Forall_app. split; [done|]. apply Forall_singleton.
  unfold new_sentence. simpl. set_solver.
Qed.

Lemma open_knowledge_propagate ai : open_knowledge ai → open_knowledge (propagate ai).
Proof.
  intros Hai. rewrite propagate_unfold.
  by apply open_knowledge_mark_safes, open_knowledge_mark_mines.
Qed.

Lemma open_knowledge_subset_inference ai :
  open_knowledge ai → open_knowledge (subset_inference ai).
Proof.
  unfold open_knowledge, open_sentence, subset_inference. simpl. intros Hai.
  apply Forall_app. split; [done|]. apply infer_Forall.
  intros s1 s2 _ Hs2 _. rewrite Forall_forall in Hai.
  destruct (Hai s2 Hs2). simpl. set_solver.
Qed.

Lemma open_knowledge_step ai o : open_knowledge ai → open_knowledge (step ai o).
Proof.
  intros Hai. destruct o as [c count|c|c]; simpl.
  - by apply open_knowledge_subset_inference, open_knowledge_propagate,
      open_knowledge_add_sentence.
  - by apply open_knowledge_mark_mine.
  - by apply open_knowledge_mark_safe.
Qed.

Lemma open_knowledge_run ops ai : open_knowledge ai → open_knowledge (run ops ai).
Proof.
  revert ai. induction ops as [|o ops IH]; intros ai Hai; [done|].
  simpl. by apply IH, open_knowledge_step.
Qed.

End settled_cells.

(** C9: after any sequence of [add_knowledge], [mark_mine] and [mark_safe]
    calls on a fresh knowledge base, the cell set of every sentence in the
    knowledge list is disjoint from [mines] and from [safes]. *)
Theorem sentences_disjoint_from_settled_cells (h w : Z) (ops : list op) :
  Forall (λ s, Sentence.cells s ## mines (run ops (init h w)) ∧
               Sentence.cells s ## safes (run ops (init h w)))
         (knowledge (run ops (init h w))).
Proof.
  apply (open_knowledge_run ops (init h w)). by apply Forall_nil.
Qed.

(** ** Derived sentences and the next call *)

Section next_call.
Implicit Types (ai : t) (c x : cell) (s : Sentence.t).

Lemma knowledge_after_move c ai :
  knowledge (after_move c ai) =
    if decide (c ∉ safes ai) then Sentence.mark_safe c <$> knowledge ai
    else knowledge ai.
Proof. unfold after_move. simpl. by destruct (decide _). Qed.

Lemma knowledge_add_sentence_incl c count ai s :
  s ∈ knowledge (after_move c ai) → s ∈ knowledge (add_sentence c count ai).
Proof.
  intros Hs. rewrite add_sentence_unfold. cbv zeta.
  destruct (decide _); simpl; set_solver.
Qed.

(** A sentence with count 0 that a call finds in the knowledge list has
    all its cells in [safes] when the call returns. *)
Lemma zero_sentence_flushed c count ai s x :
  s ∈ knowledge ai → Sentence.count s = 0 → x ∈ Sentence.cells s →
  x ∈ safes (add_knowledge c count ai).
Proof.
  intros Hs Hzero Hx. destruct (decide (x = c)) as [->|Hne].
  { destruct (add_knowledge_fields c count ai) as (_ & _ & _ & _ & ->). set_solver. }
  assert (∃ s', s' ∈ knowledge (after_move c ai) ∧ Sentence.count s' = 0 ∧
                x ∈ Sentence.cells s') as (s' & Hs' & Hzero' & Hx').
  { rewrite knowledge_after_move. destruct (decide _).
    - exists (Sentence.mark_safe c s). split; [by apply list_elem_of_fmap_2|].
      rewrite count_mark_safe, cells_mark_safe. set_solver.
    - by exists s. }
  eapply zero_sentence_marked_safe; [|done..].
  by apply knowledge_add_sentence_incl.
Qed.

End next_call.

(** C1, as the code has it: when the knowledge list holds [{A,B,C} = 1] and
    [{A,B} = 1] at the time step 7 of an [add_knowledge] call runs, the call
    returns with [{C} = 0] in the knowledge list, and [C] is in [safes] once
    the next [add_knowledge] call, whatever its arguments, has returned. *)
Theorem subset_inference_marks_safe_on_next_call
    (ai : t) (c : cell) (count : Z) (A B C : cell) :
  A ≠ B → A ≠ C → B ≠ C →
  Sentence.Build {[A; B; C]} 1 ∈ knowledge (propagate (add_sentence c count ai)) →
  Sentence.Build {[A; B]} 1 ∈ knowledge (propagate (add_sentence c count ai)) →
  Sentence.Build {[C]} 0 ∈ knowledge (add_knowledge c count ai) ∧
  ∀ c' count', C ∈ safes (add_knowledge c' count' (add_knowledge c count ai)).
Proof.
  intros _ HAC HBC Habc Hab.
  assert (Sentence.Build {[C]} 0 ∈ knowledge (add_knowledge c count ai)) as HC.
  { unfold add_knowledge, subset_inference. simpl.
    assert (Sentence.Build {[C]} 0
            = difference_sentence (Sentence.Build {[A; B]} 1)
                                  (Sentence.Build {[A; B; C]} 1)) as ->.
    { unfold difference_sentence. simpl. f_equal. set_solver. }
    apply infer_complete; [done..|].
    unfold usable_pair. simpl. repeat split; [|set_solver..].
    intros Heq%(f_equal Sentence.cells). simpl in Heq.
    assert (C ∈ ({[A; B]} : gset cell)) as HCin by (rewrite Heq; set_solver).
    clear -HCin HAC HBC. set_solver. }
  split; [done|]. intros c' count'.
  by apply (zero_sentence_flushed c' count' _ (Sentence.Build {[C]} 0)); [|done|set_solver].
Qed.

(** A 2x3 game with its mine at (1,1), after (1,2) and (0,2) were revealed:
    revealing (0,0) adds [{(0,1),(1,0),(1,1)} = 1] next to [{(0,1),(1,1)} = 1]. *)
Lemma subset_inference_marks_safe_on_next_call_witness :
  let ai := run [AddKnowledge (1, 2) 1; AddKnowledge (0, 2) 1] (init 2 3) in
  Sentence.Build {[ (1, 0) ]} 0 ∈ knowledge (add_knowledge (0, 0) 1 ai) ∧
  ∀ c' count', (1, 0) ∈ safes (add_knowledge c' count' (add_knowledge (0, 0) 1 ai)).
Proof.
  intros ai.
  apply (subset_inference_marks_safe_on_next_call ai (0, 0) 1 (0, 1) (1, 1) (1, 0));
    [discriminate | discriminate | discriminate | by_evaluation | by_evaluation].
Defined.

(** C1, as stated, fails: in the state reached by two [add_knowledge] calls
    and one [mark_safe] call the knowledge list holds [{A,B,C} = 1] and
    [{A,B} = 1] but not [{C} = 0]; the next [add_knowledge] call still holds
    both when its step 7 runs and derives [{C} = 0], yet returns without [C]
    in [safes], because step 6 ran before step 7.  The same happens in the
    run of three [add_knowledge] calls of the 2x3 game above. *)
Lemma subset_inference_does_not_mark_safe_in_same_call :
  let A : cell := (0, 1) in
  let B : cell := (1, 1) in
  let C : cell := (1, 0) in
  let ai := run [AddKnowledge (1, 2) 1; AddKnowledge (0, 0) 1; MarkSafe (0, 2)]
                (init 2 3) in
  let ai' := run [AddKnowledge (1, 2) 1; AddKnowledge (0, 2) 1] (init 2 3) in
  (Sentence.Build {[A; B; C]} 1 ∈ knowledge ai ∧
   Sentence.Build {[A; B]} 1 ∈ knowledge ai ∧
   (Sentence.Build {[C]} 0 ∉ knowledge ai) ∧
   Sentence.Build {[A; B; C]} 1 ∈ knowledge (propagate (add_sentence (0, 2) 1 ai)) ∧
   Sentence.Build {[A; B]} 1 ∈ knowledge (propagate (add_sentence (0, 2) 1 ai)) ∧
   Sentence.Build {[C]} 0 ∈ knowledge (add_knowledge (0, 2) 1 ai) ∧
   C ∉ safes (add_knowledge (0, 2) 1 ai)) ∧
  (Sentence.Build {[A; B; C]} 1 ∈ knowledge (propagate (add_sentence (0, 0) 1 ai')) ∧
   Sentence.Build {[A; B]} 1 ∈ knowledge (propagate (add_sentence (0, 0) 1 ai')) ∧
   Sentence.Build {[C]} 0 ∈ knowledge (add_knowledge (0, 0) 1 ai') ∧
   C ∉ safes (add_knowledge (0, 0) 1 ai')).
Proof. cbv zeta. by_evaluation. Qed.

(** ** The known sets only grow *)

Lemma step_grows (ai : t) (o : op) :
  mines ai ⊆ mines (step ai o) ∧ safes ai ⊆ safes (step ai o).
Proof.
  destruct o as [c count|c|c]; unfold step.
  - destruct (add_knowledge_fields c count ai) as (_ & _ & _ & -> & ->). set_solver.
  - simpl. set_solver.
  - simpl. set_solver.
Qed.

(** ** Play that tells the truth about a mine layout *)

Section truthful_play.
(** The cells that hold a mine. *)
Variable T : gset cell.
Implicit Types (ai : t) (c x : cell) (s : Sentence.t).

Lemma true_mark_mine c s : c ∈ T → true_sentence T s → true_sentence T (Sentence.mark_mine c s).
Proof.
  unfold true_sentence, Sentence.mark_mine. intros HT Hs.
  destruct (decide _) as [Hc|Hc]; [simpl|done].
  replace ((Sentence.cells s ∖ {[c]}) ∩ T) with ((Sentence.cells s ∩ T) ∖ {[c]})
    by set_solver.
  pose proof (size_remove_present c (Sentence.cells s ∩ T)) as Hsize.
  rewrite <- Hs, Hsize by set_solver. lia.
Qed.

Lemma true_mark_safe c s : c ∉ T → true_sentence T s → true_sentence T (Sentence.mark_safe c s).
Proof.
  unfold true_sentence. intros HT Hs.
  rewrite count_mark_safe, cells_mark_safe.
  by replace ((Sentence.cells s ∖ {[c]}) ∩ T) with (Sentence.cells s ∩ T) by set_solver.
Qed.

(** The direct inferences are right about true sentences. *)
Lemma known_mines_true s : true_sentence T s → Sentence.known_mines s ⊆ T.
Proof.
  unfold true_sentence, Sentence.known_mines. intros Hs.
  destruct (decide _) as [Hall|_]; [|set_solver].
  assert (Sentence.cells s ∩ T = Sentence.cells s) as Heq; [|set_solver].
  apply set_subseteq_size_eq; [set_solver | lia].
Qed.

Lemma known_safes_true s : true_sentence T s → Sentence.known_safes s ## T.
Proof.
  unfold true_sentence, Sentence.known_safes. intros Hs.
  destruct (decide _) as [Hzero|_]; [|set_solver].
  assert (Sentence.cells s ∩ T = ∅) as Heq; [|set_solver].
  apply size_zero_empty. lia.
Qed.

Lemma true_difference s1 s2 :
  usable_pair s1 s2 → true_sentence T s1 → true_sentence T s2 →
  true_sentence T (difference_sentence s1 s2).
Proof.
  unfold true_sentence, difference_sentence. intros (_ & _ & _ & Hsub) H1 H2. simpl.
  replace ((Sentence.cells s2 ∖ Sentence.cells s1) ∩ T)
    with ((Sentence.cells s2 ∩ T) ∖ (Sentence.cells s1 ∩ T)) by set_solver.
  assert (Sentence.cells s1 ∩ T ⊆ Sentence.cells s2 ∩ T) as Hsub' by set_solver.
  rewrite size_difference by done. apply subseteq_size in Hsub'. lia.
Qed.

Lemma sound_mark_mine c ai : c ∈ T → sound T ai → sound T (mark_mine c ai).
Proof.
  intros HT (Hm & Hs & Hmv & Hk). unfold sound. simpl.
  repeat split; [set_solver | done | done |].
  apply Forall_fmap. eapply Forall_impl; [exact Hk|]. intros s. by apply true_mark_mine.
Qed.

Lemma sound_mark_safe c ai : c ∉ T → sound T ai → sound T (mark_safe c ai).
Proof.
  intros HT (Hm & Hs & Hmv & Hk). unfold sound. simpl.
  repeat split; [done | set_solver | done |].
  apply Forall_fmap. eapply Forall_impl; [exact Hk|]. intros s. by apply true_mark_safe.
Qed.

Lemma sound_mark_mines l ai : (∀ c, c ∈ l → c ∈ T) → sound T ai → sound T (mark_mines l ai).
Proof.
  revert ai. induction l as [|c l IH]; intros ai Hl Hai; [done|].
  rewrite mark_mines_cons. apply IH; [set_solver|]. apply sound_mark_mine; set_solver.
Qed.

Lemma sound_mark_safes l ai : (∀ c, c ∈ l → c ∉ T) → sound T ai → sound T (mark_safes l ai).
Proof.
  revert ai. induction l as [|c l IH]; intros ai Hl Hai; [done|].
  rewrite mark_safes_cons. apply IH; [set_solver|]. apply sound_mark_safe; set_solver.
Qed.

Lemma sound_after_move c ai : c ∉ T → sound T ai → sound T (after_move c ai).
Proof.
  intros HT (Hm & Hs & Hmv & Hk).
  assert (sound T (Build (height ai) (width ai) (moves_made ai ∪ {[c]})
                       (mines ai) (safes ai) (knowledge ai))) as Hai.
  { unfold sound. simpl. repeat split; [done | done | set_solver | done]. }
  unfold after_move. destruct (decide _); [|done]. by apply sound_mark_safe.
Qed.

Lemma true_new_sentence c ai :
  c ∉ T → sound T ai →
  true_sentence T
    (new_sentence c (Z.of_nat (size (neighbours (height ai) (width ai) c ∩ T))) ai).
Proof.
  intros HT (Hm & Hs & Hmv & _)%(sound_after_move c); [|done].
  unfold true_sentence, new_sentence. simpl.
  set (ns := neighbours (height ai) (width ai) c) in *.
  set (ai1 := after_move c ai) in *.
  replace ((ns ∖ (mines ai1 ∪ safes ai1 ∪ moves_made ai1)) ∩ T)
    with ((ns ∩ T) ∖ (ns ∩ mines ai1)) by set_solver.
  assert (ns ∩ mines ai1 ⊆ ns ∩ T) as Hsub by set_solver.
  rewrite size_difference by done. apply subseteq_size in Hsub. lia.
Qed.

Lemma sound_add_sentence c ai :
  c ∉ T → sound T ai →
  sound T (add_sentence c
           (Z.of_nat (size (neighbours (height ai) (width ai) c ∩ T))) ai).
Proof.
  intros HT Hai. pose proof (true_new_sentence c ai HT Hai) as Hnew.
  apply (sound_after_move c) in Hai as (Hm & Hs & Hmv & Hk); [|done].
  rewrite add_sentence_unfold. cbv zeta. destruct (decide _); [|done].
  unfold sound. simpl. repeat split; [done..|].
  apply Forall_app. split; [done|]. by apply Forall_singleton.
Qed.

Lemma sound_propagate ai : sound T ai → sound T (propagate ai).
Proof.
  intros Hai. pose proof Hai as (_ & _ & _ & Hk). rewrite Forall_forall in Hk.
  rewrite propagate_unfold. apply sound_mark_safes.
  - intros c (s & Hs & Hc)%elem_of_elements%elem_of_scan_safes.
    pose proof (known_safes_true s (Hk s Hs)). set_solver.
  - apply sound_mark_mines; [|done].
    intros c (s & Hs & Hc)%elem_of_elements%elem_of_scan_mines.
    pose proof (known_mines_true s (Hk s Hs)). set_solver.
Qed.

Lemma sound_subset_inference ai : sound T ai → sound T (subset_inference ai).
Proof.
  intros (Hm & Hs & Hmv & Hk). unfold sound, subset_inference. simpl.
  repeat split; [done..|]. apply Forall_app. split; [done|].
  apply infer_Forall. rewrite Forall_forall in Hk.
  intros s1 s2 H1 H2 Hu. apply true_difference; auto.
Qed.

Lemma sound_step ai o : truthful T ai o → sound T ai → sound T (step ai o).
Proof.
  destruct o as [c count|c|c]; simpl.
  - intros [HT ->] Hai.
    by apply sound_subset_inference, sound_propagate, sound_add_sentence.
  - apply sound_mark_mine.
  - apply sound_mark_safe.
Qed.

Lemma sound_run ops ai : truthful_run T ai ops → sound T ai → sound T (run ops ai).
Proof.
  revert ai. induction ops as [|o ops IH]; intros ai Hops Hai; [done|].
  destruct Hops as [Ho Hops]. simpl. by apply IH, sound_step.
Qed.

Lemma sound_init h w : sound T (init h w).
Proof. unfold sound. simpl. split_and!; [set_solver.. | constructor]. Qed.

Lemma sound_disjoint ai : sound T ai → mines ai ## safes ai.
Proof. intros (Hm & Hs & _). set_solver. Qed.

End truthful_play.

(** C3, as the code has it: no call ever removes a cell from [mines] or
    from [safes]; and when every call on a fresh knowledge base tells the
    truth about one mine layout, no cell is in [mines] and [safes] at once. *)
Theorem known_sets_grow_and_truthful_play_keeps_them_disjoint :
  (∀ ai o, mines ai ⊆ mines (step ai o) ∧ safes ai ⊆ safes (step ai o)) ∧
  (∀ T h w ops, truthful_run T (init h w) ops →
     mines (run ops (init h w)) ## safes (run ops (init h w))).
Proof.
  split; [apply step_grows|].
  intros T h w ops Hops. apply (sound_disjoint T).
  apply sound_run; [done | apply sound_init].
Qed.

(** The 2x3 game with its mine at (1,1), played truthfully. *)
Lemma known_sets_grow_and_truthful_play_keeps_them_disjoint_witness :
  let ops := [AddKnowledge (1, 2) 1; AddKnowledge (0, 2) 1; AddKnowledge (0, 0) 1;
              AddKnowledge (1, 0) 1; MarkMine (1, 1)] in
  mines (run ops (init 2 3)) ## safes (run ops (init 2 3)).
Proof.
  intros ops.
  apply (proj2 known_sets_grow_and_truthful_play_keeps_them_disjoint {[ (1, 1) ]} 2 3 ops).
  unfold ops. cbn [truthful_run truthful].
  repeat split; by_evaluation.
Defined.

(** C3, as stated, fails: [mark_mine] and then [mark_safe] of one cell leave
    it in both sets, and so do two [add_knowledge] calls, the first reporting
    three mines around (0,0) on a 2x2 board and the second revealing one of
    those three cells. *)
Lemma known_mines_and_safes_can_overlap :
  let ai := run [MarkMine (0, 0); MarkSafe (0, 0)] (init 8 8) in
  let ai' := run [AddKnowledge (0, 0) 3; AddKnowledge (0, 1) 0] (init 2 2) in
  ((0, 0) ∈ mines ai ∧ (0, 0) ∈ safes ai) ∧
  ((0, 1) ∈ mines ai' ∧ (0, 1) ∈ safes ai').
Proof. cbv zeta. by_evaluation. Qed.

(** ** The board *)

Section indexing.
Context {A : Type}.
Implicit Types (l : list A) (i : Z).

Lemma getitem_None l i :
  Py.getitem l i = None ↔ ¬ (- Z.of_nat (length l) <= i < Z.of_nat (length l)).
Proof.
  unfold Py.getitem. destruct (decide (0 <= i)) as [Hi|Hi].
  - rewrite lookup_ge_None. lia.
  - destruct (decide _) as [Hlo|Hlo]; [|split; [lia | done]].
    rewrite lookup_ge_None. lia.
Qed.

Lemma getitem_nonneg l i : 0 <= i → Py.getitem l i = l !! Z.to_nat i.
Proof. intros. unfold Py.getitem. by rewrite decide_True. Qed.

Lemma getitem_negative l i :
  - Z.of_nat (length l) <= i < 0 →
  Py.getitem l i = Py.getitem l (Z.of_nat (length l) + i).
Proof.
  intros. unfold Py.getitem.
  rewrite decide_False, decide_True, (decide_True (P := 0 <= _ + _)) by lia. done.
Qed.

Lemma getitem_elem_of l i x : Py.getitem l i = Some x → x ∈ l.
Proof.
  unfold Py.getitem. intros H.
  repeat destruct (decide _); try done; by eapply list_elem_of_lookup_2.
Qed.

Lemma setitem_nonneg l i x :
  0 <= i < Z.of_nat (length l) → Py.setitem l i x = Some (<[Z.to_nat i := x]> l).
Proof. intros. unfold Py.setitem. by rewrite !decide_True by lia. Qed.

Lemma randrange_bounds n r i : Py.randrange n r = Some i → 0 <= i < n.
Proof.
  unfold Py.randrange. destruct (decide _); [|done].
  intros [= <-]. by apply Z.mod_pos_bound.
Qed.

Lemma randrange_None n r : Py.randrange n r = None ↔ n <= 0.
Proof. unfold Py.randrange. destruct (decide _); split; (done || lia). Qed.

Lemma pairs_ind (P : list A → Prop) :
  P [] → (∀ x, P [x]) → (∀ x y l, P l → P (x :: y :: l)) → ∀ l, P l.
Proof.
  intros Hnil Hone Hstep.
  assert (∀ l, P l ∧ ∀ x, P (x :: l)) as Hboth; [|intros l; apply Hboth].
  induction l as [|y l [IH1 IH2]]; split; auto.
Qed.

End indexing.

Section board_generation.
Variables h w target : Z.
Implicit Types (ms : gset cell) (b : list (list bool)) (draws : list Z).

Lemma empty_board_shape : board_shape h w (Minesweeper.empty_board h w).
Proof.
  unfold board_shape, Minesweeper.empty_board, Py.range. split.
  - rewrite length_fmap, length_seqZ. f_equal. lia.
  - apply Forall_fmap, Forall_forall. intros i _. simpl.
    rewrite length_fmap, length_seqZ. f_equal. lia.
Qed.

Lemma length_grid : length (grid h w) = (Z.to_nat h * Z.to_nat w)%nat.
Proof.
  unfold grid, Py.range. rewrite !Z.sub_0_r.
  rewrite <- (length_seqZ 0 h). generalize (seqZ 0 h). intros l.
  induction l as [|i l IH]; [done|].
  rewrite bind_cons, length_app, IH. simpl. f_equal.
  rewrite <- (length_seqZ 0 w). generalize (seqZ 0 w). intros l'.
  induction l' as [|j l' IH']; [done|]. rewrite bind_cons. simpl. by rewrite IH'.
Qed.

Lemma NoDup_grid : NoDup (grid h w).
Proof.
  unfold grid, Py.range. apply NoDup_bind; [| |apply NoDup_seqZ].
  - intros i1 i2 [i j] _ _ H1 H2.
    apply list_elem_of_bind in H1 as (j1 & H1 & _), H2 as (j2 & H2 & _).
    apply list_elem_of_singleton in H1, H2. congruence.
  - intros i _. apply NoDup_bind; [| |apply NoDup_seqZ].
    + intros j1 j2 c _ _ H1 H2. apply list_elem_of_singleton in H1, H2. congruence.
    + intros j _. apply NoDup_singleton.
Qed.

(** At most [h * w] distinct cells fit on the grid. *)
Lemma size_cells_in_grid ms : cells_in_grid h w ms → (size ms ≤ Z.to_nat h * Z.to_nat w)%nat.
Proof.
  intros Hms. rewrite <- length_grid.
  rewrite <- (size_list_to_set (C := gset cell)) by apply NoDup_grid.
  apply subseteq_size. intros [i j] Hc.
  apply elem_of_list_to_set, elem_of_grid. by apply Hms.
Qed.

(** One iteration of the loop on a grid with cells neither returns nor
    raises: it draws a cell of the grid and either finds a mine there and
    changes nothing, or finds none and places one. *)
Lemma place_mines_iteration ri rj draws ms b :
  0 < h → 0 < w → Z.of_nat (size ms) ≠ target → board_shape h w b →
  ∃ i j row, 0 <= i < h ∧ 0 <= j < w ∧ b !! Z.to_nat i = Some row ∧
    ((row !! Z.to_nat j = Some true ∧
      Minesweeper.place_mines (ri :: rj :: draws) h w target ms b
        = Minesweeper.place_mines draws h w target ms b) ∨
     (row !! Z.to_nat j = Some false ∧
      Minesweeper.place_mines (ri :: rj :: draws) h w target ms b
        = Minesweeper.place_mines draws h w target (ms ∪ {[(i, j)]})
            (<[Z.to_nat i := <[Z.to_nat j := true]> row]> b))).
Proof.
  intros Hh Hw Hsize [Hlen Hrows]. simpl.
  rewrite decide_False by done.
  destruct (Py.randrange h ri) as [i|] eqn:Hi; [|apply randrange_None in Hi; lia].
  destruct (Py.randrange w rj) as [j|] eqn:Hj; [|apply randrange_None in Hj; lia].
  apply randrange_bounds in Hi, Hj.
  rewrite getitem_nonneg by lia.
  destruct (lookup_lt_is_Some_2 b (Z.to_nat i)) as [row Hrow]; [lia|].
  rewrite Hrow.
  assert (length row = Z.to_nat w) as Hrowlen.
  { rewrite Forall_forall in Hrows. by eapply Hrows, list_elem_of_lookup_2. }
  rewrite getitem_nonneg by lia.
  destruct (lookup_lt_is_Some_2 row (Z.to_nat j)) as [[|] Hcell]; [lia| |];
    rewrite Hcell; exists i, j, row; (split; [done|]); (split; [done|]);
    (split; [done|]).
  - by left.
  - right. by rewrite !setitem_nonneg by lia.
Qed.

Lemma placing_invariant_initial : placing_invariant h w ∅ (Minesweeper.empty_board h w).
Proof.
  split; [apply empty_board_shape|]. split; [intros i j Hin; set_solver|].
  intros i j Hi Hj. unfold Minesweeper.empty_board, Py.range.
  rewrite list_lookup_fmap, (lookup_seqZ_lt _ _ (Z.to_nat i)) by lia. simpl.
  rewrite list_lookup_fmap, (lookup_seqZ_lt _ _ (Z.to_nat j)) by lia. simpl.
  by rewrite bool_decide_eq_false_2 by set_solver.
Qed.

Lemma placing_invariant_placed ms b i j row :
  placing_invariant h w ms b → 0 <= i < h → 0 <= j < w →
  b !! Z.to_nat i = Some row →
  placing_invariant h w (ms ∪ {[(i, j)]}) (<[Z.to_nat i := <[Z.to_nat j := true]> row]> b).
Proof.
  intros ([Hlen Hrows] & Hms & Hag) Hi Hj Hrow.
  assert (length row = Z.to_nat w) as Hrowlen.
  { rewrite Forall_forall in Hrows. by eapply Hrows, list_elem_of_lookup_2. }
  split; [|split].
  - split; [by rewrite length_insert|].
    apply Forall_insert; [done|]. by rewrite length_insert.
  - intros i' j' [Hin|Hin%elem_of_singleton]%elem_of_union; [by apply Hms|].
    injection Hin as -> ->. lia.
  - intros i' j' Hi' Hj'. destruct (decide (i' = i)) as [->|Hne].
    + rewrite list_lookup_insert_eq by lia. simpl.
      destruct (decide (j' = j)) as [->|Hne].
      * rewrite list_lookup_insert_eq by lia.
        by rewrite bool_decide_eq_true_2 by set_solver.
      * rewrite list_lookup_insert_ne by lia.
        specialize (Hag i j' Hi Hj'). rewrite Hrow in Hag. simpl in Hag.
        rewrite Hag. f_equal. apply bool_decide_ext. set_solver.
    + rewrite list_lookup_insert_ne by lia. rewrite (Hag i' j') by done.
      f_equal. apply bool_decide_ext. set_solver.
Qed.

(** With more mines asked for than the grid has cells, the loop never
    exits, whatever the random draws are. *)
Lemma place_mines_runs_forever draws ms b :
  0 < h → 0 < w → h * w < target →
  placing_invariant h w ms b →
  Minesweeper.place_mines draws h w target ms b = Py.Running.
Proof.
  intros Hh Hw Hbig.
  assert (∀ ms b, placing_invariant h w ms b → Z.of_nat (size ms) ≠ target) as Hne.
  { intros ms' b' (_ & Hms'%size_cells_in_grid & _). nia. }
  revert ms b. induction draws as [|ri|ri rj draws IH] using pairs_ind;
    intros ms b Hinv.
  - simpl. by rewrite decide_False by eauto.
  - simpl. rewrite decide_False by eauto.
    destruct (Py.randrange h ri) eqn:Hi; [done|apply randrange_None in Hi; lia].
  - destruct (place_mines_iteration ri rj draws ms b)
      as (i & j & row & Hi & Hj & Hrow & [[_ ->]|[_ ->]]);
      [done | done | eauto | apply Hinv | by apply IH |].
    by apply IH, placing_invariant_placed.
Qed.

(** Whenever the loop exits, it does so with exactly [target] mines, all
    on the grid, on a field that shows a mine exactly at those cells. *)
Lemma place_mines_returned draws ms b ms' b' :
  placing_invariant h w ms b →
  Minesweeper.place_mines draws h w target ms b = Py.Returned (ms', b') →
  Z.of_nat (size ms') = target ∧ placing_invariant h w ms' b'.
Proof.
  revert ms b. induction draws as [|ri|ri rj draws IH] using pairs_ind;
    intros ms b Hinv; simpl.
  - destruct (decide _); [|done]. by intros [= <- <-].
  - destruct (decide _); [by intros [= <- <-]|].
    by destruct (Py.randrange h ri).
  - destruct (decide (Z.of_nat (size ms) = target)) as [|Hsize];
      [by intros [= <- <-]|].
    destruct (Py.randrange h ri) as [i|] eqn:Hi; [|done].
    destruct (Py.randrange w rj) as [j|] eqn:Hj; [|done].
    intros Hret.
    assert (0 < h ∧ 0 < w) as [Hh Hw].
    { apply randrange_bounds in Hi, Hj. lia. }
    destruct (place_mines_iteration ri rj draws ms b)
      as (i' & j' & row & Hi' & Hj' & Hrow & [[_ Heq]|[_ Heq]]);
      [done | done | done | apply Hinv | |];
      simpl in Heq; rewrite decide_False, Hi, Hj in Heq by done;
      rewrite Heq in Hret.
    + by apply (IH ms b).
    + eapply IH; [|exact Hret]. by apply placing_invariant_placed.
Qed.

(** On an empty grid the first draw is rejected. *)
Lemma place_mines_rejected ri rj draws ms b :
  h <= 0 ∨ w <= 0 → Z.of_nat (size ms) ≠ target →
  Minesweeper.place_mines (ri :: rj :: draws) h w target ms b
    = Py.Raised Py.ValueError.
Proof.
  intros Hempty Hsize. simpl. rewrite decide_False by done.
  destruct (Py.randrange h ri) eqn:Hi; [|done].
  destruct (Py.randrange w rj) eqn:Hj; [|done].
  apply randrange_bounds in Hi, Hj. lia.
Qed.

End board_generation.

Lemma init_returned (draws : list Z) (h w target : Z) (g : Minesweeper.t) :
  Minesweeper.init draws h w target = Py.Returned g →
  Minesweeper.height g = h ∧ Minesweeper.width g = w ∧
  Z.of_nat (size (Minesweeper.mines g)) = target ∧
  placing_invariant h w (Minesweeper.mines g) (Minesweeper.board g).
Proof.
  unfold Minesweeper.init.
  destruct (Minesweeper.place_mines _ _ _ _ _ _) as [[ms b]|e|] eqn:Hloop; [|done..].
  intros [= <-]. simpl.
  apply place_mines_returned in Hloop; [tauto | apply placing_invariant_initial].
Qed.

(** C2, as the code has it: with more mines asked for than [h * w], the
    constructor never hands back a board with another number of mines.  On a
    grid that has cells it does not reject either: the placement loop is
    still running after any number of random draws.  On a grid without cells
    the first [randrange] call raises [ValueError], unless no mine is asked
    for. *)
Theorem oversized_mine_count_never_yields_a_board
    (h w target : Z) (draws : list Z) :
  h * w < target →
  (0 < h → 0 < w → Minesweeper.init draws h w target = Py.Running) ∧
  (h <= 0 ∨ w <= 0 → target ≠ 0 → (2 ≤ length draws)%nat →
     Minesweeper.init draws h w target = Py.Raised Py.ValueError) ∧
  (∀ g, Minesweeper.init draws h w target = Py.Returned g →
     Z.of_nat (size (Minesweeper.mines g)) = target).
Proof.
  intros Hbig. split; [|split].
  - intros Hh Hw. unfold Minesweeper.init.
    by rewrite place_mines_runs_forever by auto using placing_invariant_initial.
  - intros Hempty Htarget Hdraws. unfold Minesweeper.init.
    destruct draws as [|ri [|rj draws]]; [simpl in Hdraws; lia..|].
    rewrite place_mines_rejected; [done..|].
    rewrite size_empty. lia.
  - intros g Hg. by apply init_returned in Hg as (_ & _ & ? & _).
Qed.

Lemma oversized_mine_count_never_yields_a_board_witness :
  Minesweeper.init [0; 0; 0; 0; 0; 0] 1 1 2 = Py.Running ∧
  Minesweeper.init [3; 5] 0 4 1 = Py.Raised Py.ValueError.
Proof.
  split.
  - apply (oversized_mine_count_never_yields_a_board 1 1 2); lia.
  - apply (oversized_mine_count_never_yields_a_board 0 4 1); simpl; lia.
Defined.

(** C2, as stated, fails: asked for 2 mines on a 1x1 grid, the constructor
    neither raises nor returns, whatever the random draws are. *)
Lemma oversized_mine_count_is_not_rejected :
  (¬ ∃ draws e, Minesweeper.init draws 1 1 2 = Py.Raised e) ∧
  (¬ ∃ draws g, Minesweeper.init draws 1 1 2 = Py.Returned g).
Proof.
  assert (∀ draws, Minesweeper.init draws 1 1 2 = Py.Running) as Hrun.
  { intros draws. unfold Minesweeper.init.
    rewrite place_mines_runs_forever;
      [done | lia | lia | lia | apply placing_invariant_initial]. }
  split; intros (draws & x & Hx); by rewrite Hrun in Hx.
Qed.

(** C4, as the code has it: on a board the constructor returned, [is_mine]
    raises exactly for a row index outside [-h <= i < h] or a column index
    outside [-w <= j < w]; a negative index inside that range counts from the
    end, so the call answers for the cell [h] rows down or [w] columns to the
    right. *)
Theorem is_mine_rejects_outside_wraparound_range
    (draws : list Z) (h w target : Z) (g : Minesweeper.t) (i j : Z) :
  Minesweeper.init draws h w target = Py.Returned g →
  (Minesweeper.is_mine g (i, j) = None ↔ ¬ (- h <= i < h ∧ - w <= j < w)) ∧
  (- h <= i < 0 → Minesweeper.is_mine g (i, j) = Minesweeper.is_mine g (h + i, j)) ∧
  (- w <= j < 0 → Minesweeper.is_mine g (i, j) = Minesweeper.is_mine g (i, w + j)).
Proof.
  intros (_ & _ & _ & [Hlen Hrows] & _ & _)%init_returned.
  rewrite Forall_forall in Hrows. unfold Minesweeper.is_mine.
  split; [|split].
  - destruct (Py.getitem (Minesweeper.board g) i) as [row|] eqn:Hrow; simpl.
    + assert (- Z.of_nat (length (Minesweeper.board g)) <= i
              < Z.of_nat (length (Minesweeper.board g))) as Hi.
      { destruct (decide (- Z.of_nat (length (Minesweeper.board g)) <= i
                          < Z.of_nat (length (Minesweeper.board g)))); [done|].
        apply getitem_None in n. congruence. }
      apply getitem_elem_of, Hrows in Hrow.
      rewrite getitem_None. lia.
    + apply getitem_None in Hrow. split; [lia | done].
  - intros Hi. rewrite getitem_negative by lia. do 2 f_equal. lia.
  - intros Hj. destruct (Py.getitem (Minesweeper.board g) i) as [row|] eqn:Hrow;
      [simpl|done].
    apply getitem_elem_of, Hrows in Hrow.
    rewrite getitem_negative by lia. f_equal. lia.
Qed.

Lemma corner_mine_board_generated :
  Minesweeper.init [1; 1] 2 2 1 = Py.Returned corner_mine_board.
Proof. vm_compute. reflexivity. Qed.

Lemma is_mine_rejects_outside_wraparound_range_witness :
  Minesweeper.is_mine corner_mine_board (2, 0) = None ∧
  Minesweeper.is_mine corner_mine_board (-1, 1)
    = Minesweeper.is_mine corner_mine_board (1, 1).
Proof.
  pose proof (is_mine_rejects_outside_wraparound_range
                [1; 1] 2 2 1 corner_mine_board 2 0 corner_mine_board_generated)
    as (Hnone & _ & _).
  pose proof (is_mine_rejects_outside_wraparound_range
                [1; 1] 2 2 1 corner_mine_board (-1) 1 corner_mine_board_generated)
    as (_ & Hrow & _).
  split; [apply Hnone; lia | apply Hrow; lia].
Defined.

(** C4, as stated, fails: (-1,-1) and (-2,-1) are outside the 2x2 grid, and
    [is_mine] answers for both. *)
Lemma is_mine_answers_outside_the_grid :
  Minesweeper.init [1; 1] 2 2 1 = Py.Returned corner_mine_board ∧
  Minesweeper.is_mine corner_mine_board (-1, -1) = Some true ∧
  Minesweeper.is_mine corner_mine_board (-2, -1) = Some false.
Proof. split; [apply corner_mine_board_generated | split; reflexivity]. Qed.

(** ** What the board answers *)

Section board_answers.
Implicit Types (g : Minesweeper.t) (c n : cell).

Lemma foldl_row {A} (f : A → cell → A) (i : Z) (l : list Z) (a : A) :
  foldl (λ acc j, f acc (i, j)) a l = foldl f a (j ← l; [(i, j)]).
Proof. revert a. induction l as [|j l IH]; intros a; [done|]. simpl. apply IH. Qed.

Lemma foldl_block {A} (f : A → cell → A) (l1 l2 : list Z) (a : A) :
  foldl (λ acc i, foldl (λ acc j, f acc (i, j)) acc l2) a l1
    = foldl f a (i ← l1; j ← l2; [(i, j)]).
Proof.
  revert a. induction l1 as [|i l1 IH]; intros a; [done|].
  simpl. rewrite foldl_app, IH. by rewrite foldl_row.
Qed.

Lemma elem_of_block (l1 l2 : list Z) (i j : Z) :
  (i, j) ∈ (i ← l1; j ← l2; [(i, j)]) ↔ i ∈ l1 ∧ j ∈ l2.
Proof.
  rewrite list_elem_of_bind. split.
  - intros (i' & (j' & Hin & Hj)%list_elem_of_bind & Hi).
    by apply list_elem_of_singleton in Hin as [= -> ->].
  - intros [Hi Hj]. exists i. split; [|done].
    apply list_elem_of_bind. exists j. split; [set_solver | done].
Qed.

Lemma NoDup_block (l1 l2 : list Z) :
  NoDup l1 → NoDup l2 → NoDup (i ← l1; j ← l2; [(i, j)]).
Proof.
  intros H1 H2. apply NoDup_bind; [| |done].
  - intros i1 i2 [i j] _ _ (j1 & Hin1 & _)%list_elem_of_bind
      (j2 & Hin2 & _)%list_elem_of_bind.
    apply list_elem_of_singleton in Hin1, Hin2. congruence.
  - intros i _. apply NoDup_bind; [| |done].
    + intros j1 j2 c _ _ Hin1 Hin2. apply list_elem_of_singleton in Hin1, Hin2. congruence.
    + intros j _. apply NoDup_singleton.
Qed.

Lemma is_mine_on_grid g i j :
  placing_invariant (Minesweeper.height g) (Minesweeper.width g)
                    (Minesweeper.mines g) (Minesweeper.board g) →
  0 <= i < Minesweeper.height g → 0 <= j < Minesweeper.width g →
  Minesweeper.is_mine g (i, j) = Some (bool_decide ((i, j) ∈ Minesweeper.mines g)).
Proof.
  intros (_ & _ & Hag) Hi Hj. unfold Minesweeper.is_mine.
  rewrite <- (Hag i j Hi Hj), getitem_nonneg by lia.
  destruct (Minesweeper.board g !! Z.to_nat i); [simpl|done].
  by rewrite getitem_nonneg by lia.
Qed.

Lemma nearby_mines_fold g c (l : list cell) (k : Z) :
  placing_invariant (Minesweeper.height g) (Minesweeper.width g)
                    (Minesweeper.mines g) (Minesweeper.board g) →
  foldl (Minesweeper.nearby_mines_step g c) (Some k) l
    = Some (k + Z.of_nat (length (filter (counted g c) l))).
Proof.
  intros Hinv. revert k. induction l as [|[i j] l IH]; intros k.
  - simpl. f_equal. lia.
  - assert (Minesweeper.nearby_mines_step g c (Some k) (i, j)
            = Some (k + if decide (counted g c (i, j)) then 1 else 0)) as Hstep.
    { unfold Minesweeper.nearby_mines_step, counted.
      change (mbind ?f (Some k)) with (f k). cbn beta. cbn [fst snd].
      destruct (decide ((i, j) = c)) as [->|Hne].
      { rewrite decide_False by tauto. f_equal. lia. }
      destruct (decide (0 <= i < _ ∧ 0 <= j < _)) as [[Hi Hj]|Hout].
      - rewrite is_mine_on_grid by done. simpl.
        destruct (decide ((i, j) ∈ Minesweeper.mines g)) as [Hin|Hin].
        + by rewrite bool_decide_eq_true_2, decide_True by tauto.
        + rewrite bool_decide_eq_false_2, decide_False by tauto. f_equal. lia.
      - rewrite decide_False by tauto. f_equal. lia. }
    cbn [foldl]. rewrite Hstep, IH, filter_cons.
    destruct (decide (counted g c (i, j))); simpl; f_equal; lia.
Qed.

Lemma nearby_mines_on_board g c :
  placing_invariant (Minesweeper.height g) (Minesweeper.width g)
                    (Minesweeper.mines g) (Minesweeper.board g) →
  Minesweeper.nearby_mines g c
    = Some (Z.of_nat (size (neighbours (Minesweeper.height g) (Minesweeper.width g) c
                            ∩ Minesweeper.mines g))).
Proof.
  intros Hinv. unfold Minesweeper.nearby_mines.
  rewrite (foldl_block (Minesweeper.nearby_mines_step g c)), nearby_mines_fold by done.
  f_equal. rewrite Z.add_0_l. f_equal.
  rewrite <- (size_list_to_set (C := gset cell)).
  - f_equal. apply set_eq. intros [i j].
    rewrite elem_of_list_to_set, list_elem_of_filter, elem_of_block.
    rewrite elem_of_intersection, elem_of_neighbours. unfold counted, Py.range.
    rewrite !elem_of_seqZ. simpl. intuition lia.
  - apply NoDup_filter, NoDup_block; apply NoDup_seqZ.
Qed.

End board_answers.

(** A board the constructor returns holds exactly the number of mines asked
    for, all of them on the grid, and [is_mine] answers [True] on the grid
    exactly at those cells. *)
Theorem board_shows_exactly_the_mines
    (draws : list Z) (h w target : Z) (g : Minesweeper.t) :
  Minesweeper.init draws h w target = Py.Returned g →
  Z.of_nat (size (Minesweeper.mines g)) = target ∧
  (∀ i j, (i, j) ∈ Minesweeper.mines g → 0 <= i < h ∧ 0 <= j < w) ∧
  (∀ i j, 0 <= i < h → 0 <= j < w →
     Minesweeper.is_mine g (i, j)
       = Some (bool_decide ((i, j) ∈ Minesweeper.mines g))).
Proof.
  intros (Hh & Hw & Hsize & Hinv)%init_returned. split; [done|]. split.
  - apply Hinv.
  - intros i j Hi Hj. apply is_mine_on_grid; rewrite ?Hh, ?Hw; done.
Qed.

Lemma board_shows_exactly_the_mines_witness :
  Z.of_nat (size (Minesweeper.mines corner_mine_board)) = 1 ∧
  Minesweeper.is_mine corner_mine_board (1, 1)
    = Some (bool_decide ((1, 1) ∈ Minesweeper.mines corner_mine_board)).
Proof.
  pose proof (board_shows_exactly_the_mines [1; 1] 2 2 1 corner_mine_board
                corner_mine_board_generated) as (Hsize & _ & Hans).
  split; [exact Hsize | apply Hans; lia].
Defined.

(** On a board the constructor returns, [nearby_mines] does not raise and
    counts the mines among the in-bounds neighbours of the cell, the very
    set [add_knowledge] starts its sentence from. *)
Theorem nearby_mines_counts_neighbouring_mines
    (draws : list Z) (h w target : Z) (g : Minesweeper.t) (c : cell) :
  Minesweeper.init draws h w target = Py.Returned g →
  Minesweeper.nearby_mines g c
    = Some (Z.of_nat (size (neighbours h w c ∩ Minesweeper.mines g))).
Proof.
  intros (<- & <- & _ & Hinv)%init_returned. by apply nearby_mines_on_board.
Qed.

Lemma nearby_mines_counts_neighbouring_mines_witness :
  Minesweeper.nearby_mines corner_mine_board (0, 0)
    = Some (Z.of_nat (size (neighbours 2 2 (0, 0) ∩ Minesweeper.mines corner_mine_board))).
Proof.
  apply (nearby_mines_counts_neighbouring_mines [1; 1] 2 2 1),
    corner_mine_board_generated.
Defined.

(** ** The order in which a set is iterated does not matter *)

Section iteration_order.
Implicit Types (ai : t) (c : cell) (s : Sentence.t) (l : list cell).

Lemma sentence_mark_mine_comm c1 c2 s :
  Sentence.mark_mine c1 (Sentence.mark_mine c2 s)
    = Sentence.mark_mine c2 (Sentence.mark_mine c1 s).
Proof.
  destruct (decide (c1 = c2)) as [->|Hne]; [done|].
  unfold Sentence.mark_mine.
  repeat (destruct (decide _); simpl in *);
    try done; try (exfalso; set_solver); f_equal; first [set_solver | lia].
Qed.

Lemma sentence_mark_safe_comm c1 c2 s :
  Sentence.mark_safe c1 (Sentence.mark_safe c2 s)
    = Sentence.mark_safe c2 (Sentence.mark_safe c1 s).
Proof.
  destruct (decide (c1 = c2)) as [->|Hne]; [done|].
  unfold Sentence.mark_safe.
  repeat (destruct (decide _); simpl in *);
    try done; try (exfalso; set_solver); f_equal; set_solver.
Qed.

Lemma mark_mine_comm c1 c2 ai :
  mark_mine c1 (mark_mine c2 ai) = mark_mine c2 (mark_mine c1 ai).
Proof.
  unfold mark_mine. simpl. f_equal; [set_solver|].
  rewrite <- !list_fmap_compose. apply list_fmap_ext.
  intros i s _. apply sentence_mark_mine_comm.
Qed.

Lemma mark_safe_comm c1 c2 ai :
  mark_safe c1 (mark_safe c2 ai) = mark_safe c2 (mark_safe c1 ai).
Proof.
  unfold mark_safe. simpl. f_equal; [set_solver|].
  rewrite <- !list_fmap_compose. apply list_fmap_ext.
  intros i s _. apply sentence_mark_safe_comm.
Qed.

Lemma mark_mines_permutation l l' : l ≡ₚ l' → ∀ ai, mark_mines l ai = mark_mines l' ai.
Proof.
  induction 1 as [|c l l' _ IH|c1 c2 l|l1 l2 l3 _ IH1 _ IH2]; intros ai.
  - done.
  - rewrite !mark_mines_cons. apply IH.
  - rewrite !mark_mines_cons. by rewrite mark_mine_comm.
  - by rewrite IH1.
Qed.

Lemma mark_safes_permutation l l' : l ≡ₚ l' → ∀ ai, mark_safes l ai = mark_safes l' ai.
Proof.
  induction 1 as [|c l l' _ IH|c1 c2 l|l1 l2 l3 _ IH1 _ IH2]; intros ai.
  - done.
  - rewrite !mark_safes_cons. apply IH.
  - rewrite !mark_safes_cons. by rewrite mark_safe_comm.
  - by rewrite IH1.
Qed.

Lemma filter_fold_permutation ai l l' (R : gset cell) (k : Z) :
  l ≡ₚ l' → foldl (filter_step ai) (R, k) l = foldl (filter_step ai) (R, k) l'.
Proof.
  intros Hperm. rewrite !filter_fold. f_equal.
  - f_equal. apply set_eq. intros x.
    rewrite !elem_of_list_to_set, !list_elem_of_filter. by rewrite Hperm.
  - by rewrite Hperm.
Qed.

End iteration_order.

(** ** Truthful play is sound *)

(** When every call on a fresh knowledge base tells the truth about one mine
    layout, every cell in [mines] holds a mine, no cell in [safes] or in
    [moves_made] does, and every sentence of the knowledge list states the
    number of mines among its cells. *)
Theorem truthful_play_is_sound (T : gset cell) (h w : Z) (ops : list op) :
  truthful_run T (init h w) ops → sound T (run ops (init h w)).
Proof. intros Hops. apply sound_run; [done | apply sound_init]. Qed.

Lemma truthful_play_is_sound_witness :
  sound {[ (1, 1) ]}
    (run [AddKnowledge (1, 2) 1; AddKnowledge (0, 2) 1; AddKnowledge (0, 0) 1;
          AddKnowledge (1, 0) 1; MarkMine (1, 1)] (init 2 3)).
Proof.
  apply truthful_play_is_sound. cbn [truthful_run truthful].
  repeat split; by_evaluation.
Defined.

(** * Further properties of the code *)

(** ** Sentences: what they report *)

(** A sentence never reports one cell both as a known mine and as a known
    safe, and it reports cells of its own only; when it reports mines and has
    cells, it reports no safes, and the other way round. *)
Theorem known_mines_and_known_safes_never_overlap (s : Sentence.t) :
  Sentence.known_mines s ## Sentence.known_safes s ∧
  Sentence.known_mines s ⊆ Sentence.cells s ∧
  Sentence.known_safes s ⊆ Sentence.cells s ∧
  (Sentence.known_mines s = ∅ ∨ Sentence.known_safes s = ∅).
Proof.
  unfold Sentence.known_mines, Sentence.known_safes.
  destruct (decide (Z.of_nat _ = _)) as [Hall|Hall];
    destruct (decide (Sentence.count s = 0)) as [Hzero|Hzero];
    try (split_and!; [set_solver.. | auto]).
  assert (Sentence.cells s = ∅) as ->
    by (apply size_zero_empty; lia).
  split_and!; [set_solver.. | auto].
Qed.

(** ** Marking calls and how they compose *)

Lemma sentence_mark_mine_twice (c : cell) (s : Sentence.t) :
  Sentence.mark_mine c (Sentence.mark_mine c s) = Sentence.mark_mine c s.
Proof. apply mark_mine_absent. rewrite cells_mark_mine. set_solver. Qed.

Lemma sentence_mark_mine_safe_comm (c1 c2 : cell) (s : Sentence.t) :
  c1 ≠ c2 →
  Sentence.mark_mine c1 (Sentence.mark_safe c2 s)
    = Sentence.mark_safe c2 (Sentence.mark_mine c1 s).
Proof.
  intros Hne. unfold Sentence.mark_mine, Sentence.mark_safe.
  repeat (destruct (decide _); simpl in *);
    try done; try (exfalso; set_solver); f_equal; set_solver.
Qed.

(** A second [mark_mine] of the same cell changes nothing. *)
Theorem mark_mine_idempotent (ai : t) (c : cell) :
  mark_mine c (mark_mine c ai) = mark_mine c ai.
Proof.
  unfold mark_mine. simpl. f_equal; [set_solver|].
  rewrite <- list_fmap_compose. apply list_fmap_ext.
  intros i s _. apply sentence_mark_mine_twice.
Qed.

(** Two [mark_mine] calls give the same state in either order, and so do two
    [mark_safe] calls; a [mark_mine] and a [mark_safe] call do when they are
    for different cells. *)
Theorem marking_calls_commute (ai : t) (c1 c2 : cell) :
  mark_mine c1 (mark_mine c2 ai) = mark_mine c2 (mark_mine c1 ai) ∧
  mark_safe c1 (mark_safe c2 ai) = mark_safe c2 (mark_safe c1 ai) ∧
  (c1 ≠ c2 → mark_mine c1 (mark_safe c2 ai) = mark_safe c2 (mark_mine c1 ai)).
Proof.
  split; [apply mark_mine_comm|]. split; [apply mark_safe_comm|].
  intros Hne. unfold mark_mine, mark_safe. simpl. f_equal.
  rewrite <- !list_fmap_compose. apply list_fmap_ext.
  intros i s _. by apply sentence_mark_mine_safe_comm.
Qed.

Lemma marking_calls_commute_witness :
  let ai := Build 2 2 ∅ ∅ ∅ [Sentence.Build {[ (0, 1); (1, 0); (1, 1) ]} 1] in
  mark_mine (0, 1) (mark_safe (1, 0) ai) = mark_safe (1, 0) (mark_mine (0, 1) ai).
Proof.
  intros ai. apply (marking_calls_commute ai (0, 1) (1, 0)). discriminate.
Defined.

(** On one and the same cell the two kinds of call do not commute: the
    count of a sentence that holds the cell depends on which came first. *)
Lemma marking_one_cell_both_ways_depends_on_order :
  let ai := Build 2 2 ∅ ∅ ∅ [Sentence.Build {[ (0, 1); (1, 1) ]} 1] in
  knowledge (mark_mine (0, 1) (mark_safe (0, 1) ai)) = [Sentence.Build {[ (1, 1) ]} 1] ∧
  knowledge (mark_safe (0, 1) (mark_mine (0, 1) ai)) = [Sentence.Build {[ (1, 1) ]} 0].
Proof. cbv zeta. by_evaluation. Qed.

(** ** What a run of calls leaves unchanged, and what it adds *)

Section run_facts.
Implicit Types (ai : t) (o : op) (ops : list op).

Lemma revealed_cons o ops : revealed (o :: ops) = revealed [o] ++ revealed ops.
Proof. unfold revealed. simpl. by rewrite app_nil_r. Qed.

Lemma length_infer_ge ai : (length (knowledge ai) ≤ length (knowledge (subset_inference ai)))%nat.
Proof. unfold subset_inference. simpl. rewrite length_app. lia. Qed.

Lemma length_mark_mines l ai : length (knowledge (mark_mines l ai)) = length (knowledge ai).
Proof.
  revert ai. induction l as [|c l IH]; intros ai; [done|].
  rewrite mark_mines_cons, IH. simpl. by rewrite length_fmap.
Qed.

Lemma length_mark_safes l ai : length (knowledge (mark_safes l ai)) = length (knowledge ai).
Proof.
  revert ai. induction l as [|c l IH]; intros ai; [done|].
  rewrite mark_safes_cons, IH. simpl. by rewrite length_fmap.
Qed.

Lemma length_add_sentence c count ai :
  (length (knowledge ai) ≤ length (knowledge (add_sentence c count ai)))%nat.
Proof.
  rewrite add_sentence_unfold. cbv zeta.
  assert (length (knowledge (after_move c ai)) = length (knowledge ai)) as Hlen.
  { rewrite knowledge_after_move. destruct (decide _); by rewrite ?length_fmap. }
  destruct (decide _); simpl; rewrite ?length_app; lia.
Qed.

Lemma step_frame ai o :
  height (step ai o) = height ai ∧ width (step ai o) = width ai ∧
  moves_made (step ai o) = moves_made ai ∪ list_to_set (revealed [o]) ∧
  (length (knowledge ai) ≤ length (knowledge (step ai o)))%nat.
Proof.
  destruct o as [c count|c|c]; unfold step.
  - destruct (add_knowledge_fields c count ai) as (-> & -> & -> & _).
    split_and!; [done | done | simpl; set_solver |].
    unfold add_knowledge. etrans; [|apply length_infer_ge].
    rewrite propagate_unfold, length_mark_safes, length_mark_mines.
    apply length_add_sentence.
  - simpl. rewrite length_fmap. split_and!; [done | done | set_solver | done].
  - simpl. rewrite length_fmap. split_and!; [done | done | set_solver | done].
Qed.

Lemma run_fields ops ai :
  height (run ops ai) = height ai ∧ width (run ops ai) = width ai ∧
  moves_made (run ops ai) = moves_made ai ∪ list_to_set (revealed ops) ∧
  (length (knowledge ai) ≤ length (knowledge (run ops ai)))%nat.
Proof.
  revert ai. induction ops as [|o ops IH]; intros ai.
  - simpl. split_and!; [done | done | set_solver | done].
  - change (run (o :: ops) ai) with (run ops (step ai o)).
    destruct (IH (step ai o)) as (-> & -> & -> & Hlen).
    destruct (step_frame ai o) as (-> & -> & -> & Hlen').
    split_and!; [done | done | | lia].
    rewrite revealed_cons, list_to_set_app_L. set_solver.
Qed.

Lemma run_size ops ai :
  height (run ops ai) = height ai ∧ width (run ops ai) = width ai.
Proof. by destruct (run_fields ops ai) as (-> & -> & _). Qed.

End run_facts.

(** No call changes the board size, no call removes an entry from the
    knowledge list, and [moves_made] grows by exactly the cells
    [add_knowledge] was called on. *)
Theorem run_frame (ops : list op) (ai : t) :
  height (run ops ai) = height ai ∧ width (run ops ai) = width ai ∧
  moves_made (run ops ai) = moves_made ai ∪ list_to_set (revealed ops) ∧
  (length (knowledge ai) ≤ length (knowledge (run ops ai)))%nat.
Proof. apply run_fields. Qed.

(** Every cell that was played is known safe: after any run of calls on a
    fresh knowledge base, [moves_made] is a subset of [safes]. *)
Theorem moves_made_are_known_safe (h w : Z) (ops : list op) :
  moves_made (run ops (init h w)) ⊆ safes (run ops (init h w)).
Proof.
  assert (∀ ai, moves_made ai ⊆ safes ai →
                moves_made (run ops ai) ⊆ safes (run ops ai)) as Hrun.
  { induction ops as [|o ops IH]; intros ai Hai; [done|].
    change (run (o :: ops) ai) with (run ops (step ai o)). apply IH.
    destruct o as [c count|c|c]; unfold step.
    - destruct (add_knowledge_fields c count ai) as (_ & _ & -> & _ & ->). set_solver.
    - done.
    - simpl. set_solver. }
  apply Hrun. simpl. set_solver.
Qed.

(** ** Choosing a move: which cell, and in which order *)

Section move_order.

Lemma seqZ_sorted (m n : Z) : StronglySorted Z.lt (seqZ m n).
Proof.
  remember (Z.to_nat n) as k eqn:Hk. revert m n Hk.
  induction k as [|k IH]; intros m n Hk.
  - rewrite seqZ_nil by lia. constructor.
  - rewrite seqZ_cons by lia. constructor; [apply IH; lia|].
    apply Forall_forall. intros x Hx%elem_of_seqZ. lia.
Qed.

Lemma row_sorted (i : Z) (l : list Z) :
  StronglySorted Z.lt l → StronglySorted row_major_lt (j ← l; [(i, j)]).
Proof.
  induction 1 as [|j l _ IH Hj]; [constructor|].
  rewrite bind_cons. simpl. constructor; [done|].
  apply Forall_forall. intros [i' j'] (j'' & Hin & Hj'')%list_elem_of_bind.
  apply list_elem_of_singleton in Hin as [= -> ->].
  rewrite Forall_forall in Hj. right. simpl. split; [done | by apply Hj].
Qed.

Lemma block_sorted (l1 l2 : list Z) :
  StronglySorted Z.lt l1 → StronglySorted Z.lt l2 →
  StronglySorted row_major_lt (i ← l1; j ← l2; [(i, j)]).
Proof.
  intros H1 H2. induction H1 as [|i l1 _ IH Hi]; [constructor|].
  rewrite bind_cons. apply StronglySorted_app_2; [|by apply row_sorted|done].
  intros [i1 j1] [i2 j2] (j & Hin1 & _)%list_elem_of_bind [Hi2 _]%elem_of_block.
  apply list_elem_of_singleton in Hin1 as [= -> ->].
  rewrite Forall_forall in Hi. left. simpl. by apply Hi.
Qed.

Lemma grid_sorted (h w : Z) : StronglySorted row_major_lt (grid h w).
Proof. apply block_sorted; apply seqZ_sorted. Qed.

(** The first cell of the grid, in row-major order, that [P] holds of. *)
Lemma first_of_grid (P : cell → Prop) `{!∀ c, Decision (P c)} (h w : Z) (c : cell) :
  head (filter P (grid h w)) = Some c →
  P c ∧ c ∈ grid h w ∧ ∀ c', c' ∈ grid h w → row_major_lt c' c → ¬ P c'.
Proof.
  intros Hhead.
  pose proof (head_Some_elem_of _ _ Hhead) as [HP Hin]%list_elem_of_filter.
  split; [done|]. split; [done|].
  apply head_filter_Some in Hhead as (l1 & l2 & Hgrid & Hnot).
  intros c' Hc' Hlt. rewrite Hgrid in Hc'.
  pose proof (grid_sorted h w) as Hsorted. rewrite Hgrid in Hsorted.
  apply elem_of_app in Hc' as [Hc'|Hc'].
  { rewrite Forall_forall in Hnot. by apply Hnot. }
  apply elem_of_cons in Hc' as [->|Hc'].
  { unfold row_major_lt in Hlt. lia. }
  apply StronglySorted_app_1_r in Hsorted.
  apply StronglySorted_inv in Hsorted as [_ Hall].
  rewrite Forall_forall in Hall. specialize (Hall c' Hc').
  unfold row_major_lt in *. lia.
Qed.

Lemma make_safe_move_Some (ai : t) (c : cell) :
  make_safe_move ai = Some c →
  c ∈ grid (height ai) (width ai) ∧ safe_candidate ai c.
Proof.
  unfold make_safe_move. fold (safe_candidate ai).
  intros (HP & Hin & _)%first_of_grid. done.
Qed.

Lemma make_random_move_Some (ai : t) (r : Z) (c : cell) :
  make_random_move ai r = Some c →
  c ∈ grid (height ai) (width ai) ∧ random_candidate ai c.
Proof.
  unfold make_random_move. fold (random_candidate ai).
  destruct (filter _ _) as [|o os] eqn:Hopts; [done|].
  intros Hc%choice_elem_of. rewrite <- Hopts in Hc.
  apply list_elem_of_filter in Hc. tauto.
Qed.

End move_order.

(** [make_safe_move] returns a cell of the grid that is known safe and not
    yet played, and the first such cell in row-major order; it returns
    [None] exactly when the grid has no such cell. *)
Theorem make_safe_move_returns_first_safe_cell (ai : t) :
  (∀ c, make_safe_move ai = Some c →
     safe_candidate ai c ∧ (0 <= c.1 < height ai ∧ 0 <= c.2 < width ai) ∧
     ∀ c', 0 <= c'.1 < height ai → 0 <= c'.2 < width ai →
           row_major_lt c' c → ¬ safe_candidate ai c') ∧
  (make_safe_move ai = None ↔
     ∀ c, 0 <= c.1 < height ai → 0 <= c.2 < width ai → ¬ safe_candidate ai c).
Proof.
  unfold make_safe_move. fold (safe_candidate ai). split.
  - intros [i j] (HP & Hin%elem_of_grid & Hfirst)%first_of_grid.
    split; [done|]. split; [done|].
    intros [i' j'] Hi' Hj'. apply Hfirst. by apply elem_of_grid.
  - rewrite head_None. split.
    + intros Hnil [i j] Hi Hj HP.
      eapply (filter_nil_not_elem_of _ _ (i, j)); [exact Hnil | exact HP |].
      by apply elem_of_grid.
    + intros Hnone. destruct (filter _ _) as [|[i j] l] eqn:Hfilter; [done|].
      assert ((i, j) ∈ filter (safe_candidate ai) (grid (height ai) (width ai)))
        as [HP Hin%elem_of_grid]%list_elem_of_filter by (rewrite Hfilter; set_solver).
      destruct Hin as [Hi Hj]. by destruct (Hnone (i, j) Hi Hj).
Qed.

Lemma make_safe_move_returns_first_safe_cell_witness :
  let ai := Build 2 2 {[ (0, 0) ]} ∅ {[ (0, 0); (1, 0); (1, 1) ]} [] in
  make_safe_move ai = Some (1, 0) ∧ ¬ safe_candidate ai (0, 1).
Proof.
  intros ai. split; [reflexivity|].
  apply (proj1 (make_safe_move_returns_first_safe_cell ai) (1, 0));
    [reflexivity | simpl; lia | simpl; lia | left; simpl; lia].
Defined.

(** The cells [make_random_move] can return, over all outcomes of the
    random choice, are exactly the cells of the grid that are neither played
    nor known mines. *)
Theorem make_random_move_reaches_exactly_the_candidates (ai : t) (c : cell) :
  (∃ r, make_random_move ai r = Some c) ↔
  (0 <= c.1 < height ai ∧ 0 <= c.2 < width ai) ∧ random_candidate ai c.
Proof.
  unfold make_random_move. fold (random_candidate ai).
  set (options := filter (random_candidate ai) (grid (height ai) (width ai))).
  assert (c ∈ options ↔
          (0 <= c.1 < height ai ∧ 0 <= c.2 < width ai) ∧ random_candidate ai c) as <-.
  { unfold options. rewrite list_elem_of_filter. destruct c as [i j].
    rewrite elem_of_grid. simpl. tauto. }
  split.
  - intros [r Hr]. destruct options as [|o os] eqn:Hopts; [done|].
    by apply choice_elem_of in Hr.
  - intros (k & Hk)%list_elem_of_lookup_1. exists (Z.of_nat k).
    pose proof (lookup_lt_Some _ _ _ Hk) as Hlt.
    destruct options as [|o os] eqn:Hopts; [done|].
    unfold Py.choice. rewrite Z.mod_small by lia. by rewrite Nat2Z.id.
Qed.

(** When every call told the truth about the mine layout, the cell
    [make_safe_move] returns holds no mine. *)
Theorem safe_move_is_never_a_mine
    (T : gset cell) (h w : Z) (ops : list op) (c : cell) :
  truthful_run T (init h w) ops →
  make_safe_move (run ops (init h w)) = Some c → c ∉ T.
Proof.
  intros Hops Hmove.
  pose proof (sound_run T ops (init h w) Hops (sound_init T h w)) as (_ & Hsafes & _).
  apply make_safe_move_Some in Hmove as (_ & _ & Hc).
  set_solver.
Qed.

Lemma safe_move_is_never_a_mine_witness :
  let ops := [AddKnowledge (1, 2) 1; AddKnowledge (0, 2) 1; AddKnowledge (0, 0) 1;
              AddKnowledge (1, 2) 1] in
  make_safe_move (run ops (init 2 3)) = Some (1, 0) ∧ (1, 0) ∉ ({[ (1, 1) ]} : gset cell).
Proof.
  intros ops. split; [by vm_compute|].
  apply (safe_move_is_never_a_mine {[ (1, 1) ]} 2 3 ops (1, 0)); [|by vm_compute].
  unfold ops. cbn [truthful_run truthful]. repeat split; by_evaluation.
Defined.

(** ** What one [add_knowledge] call does to the knowledge base *)

Section call_contract.
Implicit Types (ai : t) (c x : cell) (s : Sentence.t) (l : list cell).





Lemma infer_invariant (I : list Sentence.t → Prop) (kn : list Sentence.t) :
  (∀ s1 s2 new, I new → I (infer_pair kn s1 s2 new)) → I [] → I (infer kn).
Proof.
  intros Hstep. rewrite infer_unfold.
  assert (∀ s1 (ss new : list Sentence.t),
            I new → I (infer_inner kn s1 new ss)) as Hinner.
  { intros s1 ss. induction ss as [|s2 ss IH]; intros new Hnew; [done|].
    apply (IH (infer_pair kn s1 s2 new)). by apply Hstep. }
  assert (∀ ss new : list Sentence.t, I new → I (infer_outer kn new ss)) as Houter.
  { intros ss. induction ss as [|s1 ss IH]; intros new Hnew; [done|].
    apply (IH (infer_inner kn s1 new kn)). by apply Hinner. }
  apply Houter.
Qed.

Lemma new_sentence_closed_form c count ai :
  new_sentence c count ai
    = Sentence.Build
        (neighbours (height ai) (width ai) c ∖ (mines ai ∪ safes ai ∪ moves_made ai))
        (count - Z.of_nat (size (neighbours (height ai) (width ai) c ∩ mines ai))).
Proof.
  unfold new_sentence.
  destruct (after_move_fields c ai) as (_ & _ & -> & -> & ->).
  pose proof (cell_not_neighbour (height ai) (width ai) c).
  f_equal. set_solver.
Qed.

Lemma full_sentence_marked_mine c count ai s x :
  s ∈ knowledge (add_sentence c count ai) →
  Z.of_nat (size (Sentence.cells s)) = Sentence.count s →
  x ∈ Sentence.cells s → x ∈ mines (add_knowledge c count ai).
Proof.
  intros Hs Hall Hx.
  destruct (add_knowledge_fields c count ai) as (_ & _ & _ & -> & _).
  apply elem_of_union_r, elem_of_scan_mines. exists s. split; [done|].
  unfold Sentence.known_mines. by rewrite decide_True.
Qed.

End call_contract.

(** Steps 1 to 5, in terms of the state before the call: the cell is taken
    out of every sentence unless it was already known safe, and the new
    sentence is about the in-bounds neighbours that are neither known mines,
    nor known safes, nor played, with the count lowered by the number of
    neighbours known to be mines; it is appended unless the list already
    holds an equal sentence. *)
Theorem add_sentence_contract (c : cell) (count : Z) (ai : t) :
  let kn := if decide (c ∈ safes ai) then knowledge ai
            else Sentence.mark_safe c <$> knowledge ai in
  let ns := neighbours (height ai) (width ai) c in
  let s := Sentence.Build (ns ∖ (mines ai ∪ safes ai ∪ moves_made ai))
                          (count - Z.of_nat (size (ns ∩ mines ai))) in
  knowledge (add_sentence c count ai) = (if decide (s ∈ kn) then kn else kn ++ [s]) ∧
  moves_made (add_sentence c count ai) = moves_made ai ∪ {[c]} ∧
  safes (add_sentence c count ai) = safes ai ∪ {[c]} ∧
  mines (add_sentence c count ai) = mines ai.
Proof.
  intros kn ns s.
  destruct (add_sentence_fields c count ai) as (_ & _ & -> & -> & ->).
  split; [|done].
  rewrite add_sentence_unfold. cbv zeta.
  assert (knowledge (after_move c ai) = kn) as Hkn.
  { rewrite knowledge_after_move. unfold kn.
    destruct (decide (c ∉ safes ai)), (decide (c ∈ safes ai)); tauto. }
  assert (new_sentence c count ai = s) as Hs.
  { unfold new_sentence, s. fold ns.
    destruct (after_move_fields c ai) as (_ & _ & -> & -> & ->).
    pose proof (cell_not_neighbour (height ai) (width ai) c). fold ns in H.
    f_equal. set_solver. }
  rewrite Hkn, Hs.
  destruct (decide (s ∉ kn)), (decide (s ∈ kn)); simpl; tauto.
Qed.


(** Step 7 derives exactly the sentences [s2 - s1] of the pairs of different,
    non-empty sentences with [s1.cells ⊆ s2.cells] that the knowledge list
    does not hold yet, each of them once. *)
Theorem subset_inference_derives_exactly_the_missing_differences
    (kn : list Sentence.t) :
  NoDup (infer kn) ∧
  ∀ s, s ∈ infer kn ↔
       (s ∉ kn) ∧ ∃ s1 s2, s1 ∈ kn ∧ s2 ∈ kn ∧ usable_pair s1 s2 ∧
                           s = difference_sentence s1 s2.
Proof.
  assert (NoDup (infer kn) ∧ Forall (λ s, s ∉ kn) (infer kn)) as [Hnodup Hfresh].
  { apply (infer_invariant (λ new, NoDup new ∧ Forall (λ s, s ∉ kn) new));
      [|split; constructor].
    intros s1 s2 new [Hnd Hfr].
    destruct (infer_pair_cases kn s1 s2 new) as [(_ & Hkn & Hnew & ->)|[_ ->]]; [|done].
    split.
    - apply NoDup_app. split; [done|]. split; [|apply NoDup_singleton].
      intros x Hx ->%list_elem_of_singleton. done.
    - apply Forall_app. split; [done|]. by apply Forall_singleton. }
  split; [done|]. intros s. split.
  - intros Hs. rewrite Forall_forall in Hfresh. split; [by apply Hfresh|].
    assert (Forall (λ s, ∃ s1 s2, s1 ∈ kn ∧ s2 ∈ kn ∧ usable_pair s1 s2 ∧
                                  s = difference_sentence s1 s2) (infer kn)) as Hall.
    { apply infer_Forall. intros s1 s2 H1 H2 Hu. by exists s1, s2. }
    rewrite Forall_forall in Hall. by apply Hall.
  - intros (Hnot & s1 & s2 & H1 & H2 & Hu & ->).
    pose proof (infer_complete kn s1 s2 H1 H2 Hu) as [?|?]%elem_of_app; done.
Qed.

(** The known sets after an [add_knowledge] call: [mines] gains the cells of
    every sentence that, when step 6 scans the list, has as many cells as its
    count; [safes] gains the revealed cell and the cells of every sentence
    that has count 0 at that time. *)
Theorem add_knowledge_known_sets (c : cell) (count : Z) (ai : t) (x : cell) :
  (x ∈ mines (add_knowledge c count ai) ↔
     x ∈ mines ai ∨
     ∃ s, s ∈ knowledge (add_sentence c count ai) ∧
          Z.of_nat (size (Sentence.cells s)) = Sentence.count s ∧ x ∈ Sentence.cells s) ∧
  (x ∈ safes (add_knowledge c count ai) ↔
     x ∈ safes ai ∨ x = c ∨
     ∃ s, s ∈ knowledge (add_sentence c count ai) ∧
          Sentence.count s = 0 ∧ x ∈ Sentence.cells s).
Proof.
  destruct (add_knowledge_fields c count ai) as (_ & _ & _ & -> & ->).
  rewrite !elem_of_union, elem_of_scan_mines, elem_of_scan_safes, elem_of_singleton.
  unfold Sentence.known_mines, Sentence.known_safes. split.
  - split; (intros [?|(s & Hs & Hx)]; [by left|right]).
    + destruct (decide _); [by exists s | set_solver].
    + destruct Hx as [Hall Hx]. exists s. by rewrite decide_True.
  - split.
    + intros [[?|?]|(s & Hs & Hx)]; [by left | by right; left |].
      right; right. destruct (decide _); [by exists s | set_solver].
    + intros [?|[?|(s & Hs & Hzero & Hx)]]; [by left; left | by left; right |].
      right. exists s. by rewrite decide_True.
Qed.

(** The two deductions a player makes from one revealed cell, on any
    knowledge base: when the count equals the number of neighbours already
    known to be mines, every neighbour that is neither known nor played ends
    up in [safes]; when the count less that number equals the number of such
    neighbours, every one of them ends up in [mines]. *)
Theorem exact_counts_settle_the_unknown_neighbours (c : cell) (count : Z) (ai : t) :
  let ns := neighbours (height ai) (width ai) c in
  let unknown := ns ∖ (mines ai ∪ safes ai ∪ moves_made ai) in
  let flagged := Z.of_nat (size (ns ∩ mines ai)) in
  (count = flagged → unknown ⊆ safes (add_knowledge c count ai)) ∧
  (count = flagged + Z.of_nat (size unknown) →
     unknown ⊆ mines (add_knowledge c count ai)).
Proof.
  intros ns unknown flagged.
  pose proof (new_sentence_in_knowledge c count ai) as Hin.
  rewrite new_sentence_closed_form in Hin. fold ns unknown flagged in Hin.
  split; intros Hcount x Hx.
  - eapply zero_sentence_marked_safe; [exact Hin | simpl; lia | done].
  - eapply full_sentence_marked_mine; [exact Hin | simpl; lia | done].
Qed.

Lemma exact_counts_settle_the_unknown_neighbours_witness :
  let ai := add_knowledge (0, 0) 0 (init 2 3) in
  {[ (0, 2); (1, 2) ]} ⊆ mines (add_knowledge (0, 1) 2 ai).
Proof.
  intros ai.
  pose proof (exact_counts_settle_the_unknown_neighbours (0, 1) 2 ai) as [_ Hmines].
  assert (neighbours (height ai) (width ai) (0, 1)
            ∖ (mines ai ∪ safes ai ∪ moves_made ai) = {[ (0, 2); (1, 2) ]}) as Hunknown
    by by_evaluation.
  rewrite Hunknown in Hmines. apply Hmines. by_evaluation.
Defined.

(** A cell [add_knowledge] was called on is never proposed as a move
    again, neither by [make_safe_move] nor by [make_random_move]. *)
Theorem played_cells_are_never_proposed_again
    (ops : list op) (ai : t) (c : cell) (r : Z) :
  c ∈ revealed ops →
  make_safe_move (run ops ai) ≠ Some c ∧ make_random_move (run ops ai) r ≠ Some c.
Proof.
  intros Hc.
  assert (c ∈ moves_made (run ops ai)) as Hplayed.
  { destruct (run_fields ops ai) as (_ & _ & -> & _).
    apply elem_of_union_r. by apply elem_of_list_to_set. }
  split.
  - by intros (_ & Hnew & _)%make_safe_move_Some.
  - by intros (_ & Hnew & _)%make_random_move_Some.
Qed.

Lemma played_cells_are_never_proposed_again_witness :
  make_safe_move (run [AddKnowledge (0, 0) 0] (init 2 2)) ≠ Some (0, 0) ∧
  make_random_move (run [AddKnowledge (0, 0) 0] (init 2 2)) 0 ≠ Some (0, 0).
Proof.
  apply played_cells_are_never_proposed_again. by_evaluation.
Defined.

(** ** Which boards the constructor can build *)

Section reachable_layouts.
Variables h w target : Z.
Implicit Types (ms : gset cell) (b : list (list bool)) (l : list cell).

Lemma draws_for_cons i j l : draws_for ((i, j) :: l) = i :: j :: draws_for l.
Proof. done. Qed.

(** Drawing a cell of the grid that holds no mine yet places one there. *)
Lemma place_mines_places i j draws ms b :
  0 <= i < h → 0 <= j < w → (i, j) ∉ ms → Z.of_nat (size ms) ≠ target →
  placing_invariant h w ms b →
  ∃ b', placing_invariant h w (ms ∪ {[(i, j)]}) b' ∧
    Minesweeper.place_mines (i :: j :: draws) h w target ms b
      = Minesweeper.place_mines draws h w target (ms ∪ {[(i, j)]}) b'.
Proof.
  intros Hi Hj Hnew Hsize Hinv.
  pose proof Hinv as ([Hlen Hrows] & _ & Hag).
  specialize (Hag i j Hi Hj). rewrite bool_decide_eq_false_2 in Hag by done.
  destruct (b !! Z.to_nat i) as [row|] eqn:Hrow; [simpl in Hag|done].
  exists (<[Z.to_nat i := <[Z.to_nat j := true]> row]> b). split.
  { by apply placing_invariant_placed. }
  pose proof (lookup_lt_Some _ _ _ Hrow). pose proof (lookup_lt_Some _ _ _ Hag).
  simpl. rewrite decide_False by done.
  unfold Py.randrange. rewrite !decide_True by lia. rewrite !Z.mod_small by lia.
  rewrite getitem_nonneg, Hrow by lia. rewrite getitem_nonneg, Hag by lia.
  by rewrite !setitem_nonneg by lia.
Qed.

(** The draws for a list of distinct free cells of the grid place a mine on
    each of them, and the loop exits when the last one is placed. *)
Lemma place_mines_draws_for l ms b :
  NoDup l → (∀ c, c ∈ l → c ∉ ms) → cells_in_grid h w (list_to_set l) →
  placing_invariant h w ms b →
  Z.of_nat (size ms + length l) = target →
  ∃ b', Minesweeper.place_mines (draws_for l) h w target ms b
          = Py.Returned (ms ∪ list_to_set l, b').
Proof.
  intros Hl. revert ms b. induction Hl as [|[i j] l Hc _ IH]; intros ms b Hfree Hgrid Hinv Hsize.
  - exists b. simpl in *. rewrite decide_True by lia. do 2 f_equal. set_solver.
  - rewrite draws_for_cons.
    destruct (Hgrid i j) as [Hi Hj]; [set_solver|].
    destruct (place_mines_places i j (draws_for l) ms b) as (b1 & Hinv1 & ->);
      [done | done | apply Hfree; set_solver | simpl in Hsize; lia | done |].
    destruct (IH (ms ∪ {[(i, j)]}) b1) as [b' Hb'].
    + intros c Hin. specialize (Hfree c). set_solver.
    + intros i' j' Hin. apply Hgrid. set_solver.
    + done.
    + rewrite size_union, size_singleton by (specialize (Hfree (i, j)); set_solver).
      simpl in Hsize. lia.
    + exists b'. rewrite Hb'. do 2 f_equal. set_solver.
Qed.

Lemma layout_generated ms :
  cells_in_grid h w ms → Z.of_nat (size ms) = target →
  ∃ g, Minesweeper.init (draws_for (elements ms)) h w target = Py.Returned g ∧
       Minesweeper.mines g = ms.
Proof.
  intros Hgrid Hsize.
  destruct (place_mines_draws_for (elements ms) ∅ (Minesweeper.empty_board h w))
    as [b' Hb'].
  - apply NoDup_elements.
  - set_solver.
  - by rewrite list_to_set_elements_L.
  - apply placing_invariant_initial.
  - rewrite size_empty. unfold size, set_size in Hsize. simpl in *. lia.
  - unfold Minesweeper.init. rewrite Hb'. eexists. split; [done|]. simpl.
    rewrite list_to_set_elements_L. set_solver.
Qed.

End reachable_layouts.

(** Every set of grid cells is a mine layout the constructor can return: for
    some outcome of the random draws it returns the board with exactly these
    mines. *)
Theorem every_mine_layout_can_be_generated (h w : Z) (ms : gset cell) :
  cells_in_grid h w ms →
  ∃ draws g, Minesweeper.init draws h w (Z.of_nat (size ms)) = Py.Returned g ∧
             Minesweeper.mines g = ms.
Proof. intros Hgrid. exists (draws_for (elements ms)). by apply layout_generated. Qed.

Lemma every_mine_layout_can_be_generated_witness :
  ∃ draws g,
    Minesweeper.init draws 2 3 (Z.of_nat (size ({[ (0, 2); (1, 1) ]} : gset cell)))
      = Py.Returned g ∧
    Minesweeper.mines g = {[ (0, 2); (1, 1) ]}.
Proof.
  apply every_mine_layout_can_be_generated. intros i j Hin.
  apply elem_of_union in Hin as [Hin|Hin];
    apply elem_of_singleton in Hin as [= -> ->]; lia.
Defined.

(** The constructor can return a board exactly when the mine count is
    between 0 and the number of cells of the grid. *)
Theorem constructor_returns_iff_mine_count_fits (h w target : Z) :
  (∃ draws g, Minesweeper.init draws h w target = Py.Returned g) ↔
  0 <= target <= Z.max 0 h * Z.max 0 w.
Proof.
  assert (Z.of_nat (Z.to_nat h * Z.to_nat w) = Z.max 0 h * Z.max 0 w) as Hcells.
  { rewrite Nat2Z.inj_mul. f_equal; lia. }
  split.
  - intros (draws & g & (_ & _ & Hsize & _ & Hgrid%size_cells_in_grid & _)%init_returned).
    lia.
  - intros Htarget.
    set (l := take (Z.to_nat target) (grid h w)).
    assert (NoDup l) as Hl.
    { eapply sublist_NoDup; [apply NoDup_grid | apply sublist_take]. }
    destruct (layout_generated h w target (list_to_set l)) as (g & Hg & _).
    + intros i j Hin%elem_of_list_to_set. apply elem_of_grid.
      by eapply subseteq_take.
    + rewrite size_list_to_set by done. unfold l.
      rewrite length_take_le; [lia|]. rewrite length_grid. lia.
    + eauto.
Qed.

(** ** What the board answers, continued *)

Section counting.
Implicit Types (g : Minesweeper.t) (c n : cell).

Lemma length_block_around c : length (block_around c) = 9%nat.
Proof.
  unfold block_around, Py.range.
  replace (c.1 + 2 - (c.1 - 1)) with 3 by lia.
  replace (c.2 + 2 - (c.2 - 1)) with 3 by lia. reflexivity.
Qed.

(** A cell has at most 8 neighbours. *)
Lemma size_neighbours h w c : (size (neighbours h w c) ≤ 8)%nat.
Proof.
  assert (c ∈ (list_to_set (block_around c) : gset cell)) as Hc.
  { destruct c as [i j]. apply elem_of_list_to_set, elem_of_block.
    unfold Py.range. rewrite !elem_of_seqZ. simpl. lia. }
  pose proof (size_remove_present c _ Hc) as Hsize.
  rewrite size_list_to_set, length_block_around in Hsize
    by (apply NoDup_block; apply NoDup_seqZ).
  assert (neighbours h w c ⊆ list_to_set (block_around c) ∖ {[c]}) as Hsub.
  { intros [i j] Hn%elem_of_neighbours. simpl in Hn.
    apply elem_of_difference. split; [|set_solver].
    apply elem_of_list_to_set, elem_of_block.
    unfold Py.range. rewrite !elem_of_seqZ. lia. }
  apply subseteq_size in Hsub. lia.
Qed.

End counting.

(** On a board the constructor returns, [nearby_mines] returns a number
    from 0 to 8 for every cell, on the grid or not. *)
Theorem nearby_mines_is_between_0_and_8
    (draws : list Z) (h w target : Z) (g : Minesweeper.t) (c : cell) :
  Minesweeper.init draws h w target = Py.Returned g →
  ∃ n, Minesweeper.nearby_mines g c = Some n ∧ 0 <= n <= 8.
Proof.
  intros (Hh & Hw & _ & Hinv)%init_returned. rewrite <- Hh, <- Hw in Hinv.
  eexists. split; [by apply nearby_mines_on_board|].
  pose proof (size_neighbours (Minesweeper.height g) (Minesweeper.width g) c).
  assert (neighbours (Minesweeper.height g) (Minesweeper.width g) c ∩ Minesweeper.mines g
          ⊆ neighbours (Minesweeper.height g) (Minesweeper.width g) c) as Hsub%subseteq_size
    by set_solver.
  lia.
Qed.

Lemma nearby_mines_is_between_0_and_8_witness :
  ∃ n, Minesweeper.nearby_mines corner_mine_board (0, 0) = Some n ∧ 0 <= n <= 8.
Proof.
  apply (nearby_mines_is_between_0_and_8 [1; 1] 2 2 1), corner_mine_board_generated.
Defined.

(** A board the constructor has just returned counts as won exactly when no
    mine was asked for. *)
Theorem fresh_board_is_won_iff_no_mines
    (draws : list Z) (h w target : Z) (g : Minesweeper.t) :
  Minesweeper.init draws h w target = Py.Returned g →
  (Minesweeper.won g = true ↔ target = 0).
Proof.
  intros Hg. pose proof (init_returned _ _ _ _ _ Hg) as (_ & _ & <- & _).
  unfold Minesweeper.init in Hg.
  destruct (Minesweeper.place_mines _ _ _ _ _ _) as [[ms b]|e|]; [|done..].
  injection Hg as <-. unfold Minesweeper.won. simpl.
  rewrite bool_decide_eq_true. split.
  - intros <-. by rewrite size_empty.
  - intros Hsize. symmetry. apply size_zero_empty. lia.
Qed.

Lemma fresh_board_is_won_iff_no_mines_witness :
  Minesweeper.won corner_mine_board = true ↔ 1 = 0.
Proof.
  apply (fresh_board_is_won_iff_no_mines [1; 1] 2 2), corner_mine_board_generated.
Defined.

(** ** Playing on a generated board *)

Section playing.
Implicit Types (g : Minesweeper.t) (ai : t) (ops : list op).

Lemma board_answers_truthful g ops ai :
  placing_invariant (Minesweeper.height g) (Minesweeper.width g)
                    (Minesweeper.mines g) (Minesweeper.board g) →
  height ai = Minesweeper.height g → width ai = Minesweeper.width g →
  Forall (board_answer g) ops → truthful_run (Minesweeper.mines g) ai ops.
Proof.
  intros Hinv. revert ai. induction ops as [|o ops IH]; intros ai Hh Hw Hall; [done|].
  apply Forall_cons in Hall as [Ho Hall]. split.
  - destruct o as [c n|c|c]; try done. destruct Ho as [Hc Hn].
    split; [done|]. rewrite nearby_mines_on_board in Hn by done.
    injection Hn as <-. by rewrite Hh, Hw.
  - destruct (step_frame ai o) as (Hh' & Hw' & _).
    apply IH; [congruence | congruence | done].
Qed.

Lemma true_sentence_count_range (T : gset cell) (s : Sentence.t) :
  true_sentence T s → 0 <= Sentence.count s <= Z.of_nat (size (Sentence.cells s)).
Proof.
  unfold true_sentence. intros <-.
  assert (Sentence.cells s ∩ T ⊆ Sentence.cells s) as Hsub%subseteq_size by set_solver.
  lia.
Qed.

End playing.

(** A game on a board the constructor returned, in which [add_knowledge] is
    called on cells without a mine with the count [nearby_mines] returns for
    them: every cell in [mines] is a mine of the board, the cell
    [make_safe_move] returns is not, and the count of every sentence lies
    between 0 and the number of its cells. *)
Theorem play_on_a_generated_board_is_sound
    (draws : list Z) (h w target : Z) (g : Minesweeper.t) (ops : list op) :
  Minesweeper.init draws h w target = Py.Returned g →
  Forall (board_answer g) ops →
  (∀ c, c ∈ mines (run ops (init h w)) → Minesweeper.is_mine g c = Some true) ∧
  (∀ c, make_safe_move (run ops (init h w)) = Some c →
        Minesweeper.is_mine g c = Some false) ∧
  Forall (λ s, 0 <= Sentence.count s <= Z.of_nat (size (Sentence.cells s)))
         (knowledge (run ops (init h w))).
Proof.
  intros (Hh & Hw & _ & Hinv)%init_returned Hops. subst h w.
  set (ai := run ops (init (Minesweeper.height g) (Minesweeper.width g))).
  assert (sound (Minesweeper.mines g) ai) as (Hmines & Hsafes & _ & Hkn).
  { apply sound_run; [|apply sound_init]. by apply board_answers_truthful. }
  destruct (run_size ops (init (Minesweeper.height g) (Minesweeper.width g)))
    as [Hrh Hrw]. fold ai in Hrh, Hrw. simpl in Hrh, Hrw.
  split; [|split].
  - intros [i j] Hc%Hmines. pose proof Hinv as (_ & Hgrid & _).
    destruct (Hgrid i j Hc). rewrite is_mine_on_grid by done.
    by rewrite bool_decide_eq_true_2.
  - intros [i j] (Hin & _ & Hc)%make_safe_move_Some.
    rewrite Hrh, Hrw in Hin. apply elem_of_grid in Hin as [Hi Hj].
    rewrite is_mine_on_grid by done.
    rewrite bool_decide_eq_false_2; [done | set_solver].
  - eapply Forall_impl; [exact Hkn|]. apply true_sentence_count_range.
Qed.

Lemma centre_mine_board_generated :
  Minesweeper.init [1; 1] 2 3 1 = Py.Returned centre_mine_board.
Proof. vm_compute. reflexivity. Qed.

Lemma play_on_a_generated_board_is_sound_witness :
  let ops := [AddKnowledge (1, 2) 1; AddKnowledge (0, 2) 1; AddKnowledge (0, 0) 1;
              AddKnowledge (1, 2) 1] in
  make_safe_move (run ops (init 2 3)) = Some (1, 0) ∧
  Minesweeper.is_mine centre_mine_board (1, 0) = Some false.
Proof.
  intros ops. split; [by vm_compute|].
  apply (play_on_a_generated_board_is_sound [1; 1] 2 3 1 centre_mine_board ops);
    [apply centre_mine_board_generated | | by vm_compute].
  unfold ops. repeat constructor; by_evaluation.
Defined.

(** ** Python's iteration order over a set *)

(** The loops of [add_knowledge] that run over a set (step 4 over the
    neighbours, step 6 over the collected mines and safes) give the same
    result whatever order the set hands its elements out in. *)
Theorem set_loops_do_not_depend_on_iteration_order
    (ai : t) (ns : gset cell) (count : Z) (ln lm ls : list cell) :
  ln ≡ₚ elements ns →
  lm ≡ₚ elements (scan (knowledge ai)).1 →
  ls ≡ₚ elements (scan (knowledge ai)).2 →
  foldl (filter_step ai) (∅, count) ln
    = foldl (filter_step ai) (∅, count) (elements ns) ∧
  mark_safes ls (mark_mines lm ai) = propagate ai.
Proof.
  intros Hn Hm Hs. split; [by apply filter_fold_permutation|].
  rewrite propagate_unfold.
  rewrite (mark_safes_permutation _ _ Hs). f_equal.
  by apply mark_mines_permutation.
Qed.

Lemma set_loops_do_not_depend_on_iteration_order_witness :
  let ai := Build 2 3 ∅ ∅ ∅ [Sentence.Build {[ (0, 1); (1, 1) ]} 2;
                             Sentence.Build {[ (0, 0); (1, 0) ]} 0] in
  mark_safes (reverse (elements (scan (knowledge ai)).2))
             (mark_mines (reverse (elements (scan (knowledge ai)).1)) ai)
    = propagate ai.
Proof.
  intros ai.
  apply (set_loops_do_not_depend_on_iteration_order ai ∅ 0 []);
    [done | apply reverse_Permutation | apply reverse_Permutation].
Defined.

(** ** What [print] writes *)

Section printing.
Context {A B : Type}.
Implicit Types (f g : A → B) (l : list A) (k : nat).

Lemma length_pairs f g l :
  length (concat ((λ x, [f x; g x]) <$> l)) = (2 * length l)%nat.
Proof.
  induction l as [|x l IH]; [done|].
  rewrite fmap_cons. cbn [concat app length]. rewrite IH. simpl. lia.
Qed.

Lemma lookup_pairs f g l k :
  concat ((λ x, [f x; g x]) <$> l) !! (2 * k)%nat = f <$> l !! k ∧
  concat ((λ x, [f x; g x]) <$> l) !! (2 * k + 1)%nat = g <$> l !! k.
Proof.
  revert k. induction l as [|x l IH]; intros k.
  - by rewrite !lookup_nil.
  - destruct k as [|k]; [done|].
    replace (2 * S k)%nat with (S (S (2 * k))) by lia.
    replace (S (S (2 * k)) + 1)%nat with (S (S (2 * k + 1))) by lia.
    apply IH.
Qed.

Lemma mapM_total (f : A → option B) g l :
  (∀ x, x ∈ l → f x = Some (g x)) → mapM f l = Some (g <$> l).
Proof.
  intros Hf. apply mapM_Some, Forall2_fmap_r, Forall_Forall2_diag, Forall_forall.
  exact Hf.
Qed.

End printing.

Lemma str_mul_dashes (n : Z) :
  Py.str_mul ["-"; "-"]%char n ++ ["-"]%char = replicate (2 * Z.to_nat n + 1) "-"%char.
Proof.
  unfold Py.str_mul. induction (Z.to_nat n) as [|k IH]; [done|].
  replace (2 * S k + 1)%nat with (S (S (2 * k + 1))) by lia. simpl. by rewrite IH.
Qed.

Lemma print_closed_form (g : Minesweeper.t) :
  placing_invariant (Minesweeper.height g) (Minesweeper.width g)
                    (Minesweeper.mines g) (Minesweeper.board g) →
  Minesweeper.print g
    = Some (concat ((λ i, [replicate (2 * Z.to_nat (Minesweeper.width g) + 1) "-"%char;
                           concat ((λ j, ["|"%char; shown g (i, j)])
                                   <$> Py.range 0 (Minesweeper.width g)) ++ ["|"%char]])
                    <$> Py.range 0 (Minesweeper.height g))
            ++ [replicate (2 * Z.to_nat (Minesweeper.width g) + 1) "-"%char]).
Proof.
  intros Hinv. unfold Minesweeper.print.
  erewrite mapM_total; [simpl; by rewrite str_mul_dashes|].
  intros i Hi%elem_of_seqZ. unfold Minesweeper.print_row.
  erewrite mapM_total; [simpl; by rewrite str_mul_dashes|].
  intros j Hj%elem_of_seqZ. simpl. unfold Minesweeper.print_cell.
  pose proof (is_mine_on_grid g i j Hinv ltac:(lia) ltac:(lia)) as Hmine.
  unfold Minesweeper.is_mine in Hmine.
  destruct (Py.getitem (Minesweeper.board g) i) as [row|]; simpl in Hmine |- *; [|done].
  rewrite Hmine. simpl. unfold shown. by destruct (bool_decide _).
Qed.

(** On a board the constructor returns, [print] does not raise; it writes
    [2 * height + 1] lines of [2 * width + 1] characters each, and the
    character at line [2 * i + 1], column [2 * j + 1] is an X when the cell
    [(i, j)] holds a mine and a blank when it does not. *)
Theorem print_shows_exactly_the_mines
    (draws : list Z) (h w target : Z) (g : Minesweeper.t) :
  Minesweeper.init draws h w target = Py.Returned g →
  ∃ lines, Minesweeper.print g = Some lines ∧
    length lines = (2 * Z.to_nat h + 1)%nat ∧
    Forall (λ line, length line = (2 * Z.to_nat w + 1)%nat) lines ∧
    ∀ i j, 0 <= i < h → 0 <= j < w →
      lines !! Z.to_nat (2 * i + 1) ≫= (λ line, line !! Z.to_nat (2 * j + 1))
        = Some (if bool_decide ((i, j) ∈ Minesweeper.mines g) then "X" else " ")%char.
Proof.
  intros (Hh & Hw & _ & Hinv)%init_returned. subst h w.
  eexists. split; [by apply print_closed_form|].
  set (rule := replicate _ _).
  assert (length rule = (2 * Z.to_nat (Minesweeper.width g) + 1)%nat) as Hrule
    by apply length_replicate.
  assert (∀ i, length (concat ((λ j, ["|"%char; shown g (i, j)])
                                 <$> Py.range 0 (Minesweeper.width g)) ++ ["|"%char])
               = (2 * Z.to_nat (Minesweeper.width g) + 1)%nat) as Hrow.
  { intros i. rewrite length_app, length_pairs. unfold Py.range.
    rewrite length_seqZ. simpl. lia. }
  split; [|split].
  - rewrite length_app, length_pairs. unfold Py.range. rewrite length_seqZ. simpl. lia.
  - apply Forall_app. split; [|by apply Forall_singleton].
    apply Forall_concat, Forall_fmap, Forall_forall. intros i _. simpl.
    apply Forall_cons. split; [done|]. apply Forall_singleton, Hrow.
  - intros i j Hi Hj.
    replace (Z.to_nat (2 * i + 1)) with (2 * Z.to_nat i + 1)%nat by lia.
    replace (Z.to_nat (2 * j + 1)) with (2 * Z.to_nat j + 1)%nat by lia.
    assert (∀ n k, 0 <= k < n → Py.range 0 n !! Z.to_nat k = Some k) as Hrange.
    { intros n k Hk. unfold Py.range. rewrite lookup_seqZ_lt by lia. f_equal. lia. }
    rewrite lookup_app_l
      by (rewrite length_pairs; unfold Py.range; rewrite length_seqZ; lia).
    destruct (lookup_pairs (λ _ : Z, rule)
                (λ i, concat ((λ j, ["|"%char; shown g (i, j)])
                              <$> Py.range 0 (Minesweeper.width g)) ++ ["|"%char])
                (Py.range 0 (Minesweeper.height g)) (Z.to_nat i)) as [_ ->].
    rewrite Hrange by done. cbn [fmap option_fmap option_map mbind option_bind].
    rewrite lookup_app_l
      by (rewrite length_pairs; unfold Py.range; rewrite length_seqZ; lia).
    destruct (lookup_pairs (λ _ : Z, "|"%char) (λ j, shown g (i, j))
                (Py.range 0 (Minesweeper.width g)) (Z.to_nat j)) as [_ ->].
    by rewrite Hrange.
Qed.

Lemma print_shows_exactly_the_mines_witness :
  ∃ lines, Minesweeper.print corner_mine_board = Some lines ∧
    length lines = (2 * Z.to_nat 2 + 1)%nat ∧
    Forall (λ line, length line = (2 * Z.to_nat 2 + 1)%nat) lines ∧
    ∀ i j, 0 <= i < 2 → 0 <= j < 2 →
      lines !! Z.to_nat (2 * i + 1) ≫= (λ line, line !! Z.to_nat (2 * j + 1))
        = Some (if bool_decide ((i, j) ∈ Minesweeper.mines corner_mine_board)
                then "X" else " ")%char.
Proof.
  apply (print_shows_exactly_the_mines [1; 1] 2 2 1), corner_mine_board_generated.
Defined.

Section print_example.
Import String.

(** What is written for the 2x2 board with its mine at (1,1). *)
Lemma print_corner_mine_board :
  Minesweeper.print corner_mine_board
    = Some (list_ascii_of_string
              <$> ["-----"; "| | |"; "-----"; "| |X|"; "-----"]%string).
Proof. reflexivity. Qed.

End print_example.
